(** * Police route finder: a shallow embedding of [Police_Route_Finder.py]

    The development follows the Python module class by class:
    [Vertex], [Edge], [Graph] (with [add_vertex], [add_edge], [dijkstra],
    [get_path_description], [_get_direction]) and [PoliceDispatchSystem]
    ([add_cop], [remove_cop], [find_nearest_cop]).

    Modelling conventions.
    - Vertex identifiers are Python ints ([Z]); cop identifiers and traffic
      conditions are strings.
    - Edge costs are exact integers, as in [create_map]; [float('infinity')]
      is the extra element [Inf] of [Dist].  Rounding of float costs typed
      at the menu is outside the model.
    - [Graph.vertices] is a [gmap]; [Vertex.edges] and
      [PoliceDispatchSystem.cops] are association lists kept in insertion
      order with unique keys (the iteration order of a Python dict).
    - Methods are computations in a state-and-exception monad over the
      object they are called on; [print] is not modelled.
    - [heapq] is modelled by its contract: [heappop] removes the least
      tuple. *)

From Stdlib Require Import ZArith QArith String List Lia Lqa.
From stdpp Require Import base option list gmap strings pretty.

Local Open Scope string_scope.
Local Open Scope Z_scope.

(** ** Results, exceptions and the method monad *)

Inductive exn : Type :=
| ValueError (msg : string)
| KeyError.

Inductive result (A : Type) : Type :=
| Ok (a : A)
| Raise (e : exn)
| OutOfFuel.

Arguments Ok {A} a.
Arguments Raise {A} e.
Arguments OutOfFuel {A}.

Definition result_bind {A B} (r : result A) (k : A → result B) : result B :=
  match r with
  | Ok a => k a
  | Raise e => Raise e
  | OutOfFuel => OutOfFuel
  end.

(** A method of an object with state [S]: it returns a result and the state
    it leaves behind; an exception keeps the state reached so far. *)
Definition M (S A : Type) : Type := S → result A * S.

Definition ret {S A} (a : A) : M S A := λ s, (Ok a, s).

Definition bind {S A B} (m : M S A) (k : A → M S B) : M S B :=
  λ s, match m s with
       | (Ok a, s') => k a s'
       | (Raise e, s') => (Raise e, s')
       | (OutOfFuel, s') => (OutOfFuel, s')
       end.

Definition raise {S A} (e : exn) : M S A := λ s, (Raise e, s).
Definition gets {S A} (f : S → A) : M S A := λ s, (Ok (f s), s).
Definition modify {S} (f : S → S) : M S unit := λ s, (Ok tt, f s).
Definition liftR {S A} (r : result A) : M S A := λ s, (r, s).

(** Run a method of a sub-object (here: [self.graph]) inside its owner. *)
Definition zoom {S T A} (get : S → T) (set : T → S → S) (m : M T A) : M S A :=
  λ s, let '(r, t) := m (get s) in (r, set t s).

Notation "x <- m ;; k" := (bind m (λ x, k))
  (at level 100, m at next level, right associativity).
Notation "m ;;; k" := (bind m (λ _, k))
  (at level 100, right associativity).

(** [d[k]] on a Python dict: a missing key raises [KeyError]. *)
Definition subscript {A} (o : option A) : result A :=
  match o with
  | Some a => Ok a
  | None => Raise KeyError
  end.

(** ** Python dicts whose iteration order matters *)

Section PyDict.
Context {K V : Type} `{EqDecision K}.

Fixpoint dict_get (d : list (K * V)) (k : K) : option V :=
  match d with
  | [] => None
  | (k', v) :: d' => if decide (k' = k) then Some v else dict_get d' k
  end.

(** [d[k] = v]: overwrite in place, or append a new key at the end. *)
Fixpoint dict_set (d : list (K * V)) (k : K) (v : V) : list (K * V) :=
  match d with
  | [] => [(k, v)]
  | (k', v') :: d' =>
      if decide (k' = k) then (k, v) :: d' else (k', v') :: dict_set d' k v
  end.

(** [del d[k]] for a key that is present. *)
Fixpoint dict_del (d : list (K * V)) (k : K) : list (K * V) :=
  match d with
  | [] => []
  | (k', v') :: d' =>
      if decide (k' = k) then d' else (k', v') :: dict_del d' k
  end.

Definition dict_mem (d : list (K * V)) (k : K) : bool :=
  bool_decide (is_Some (dict_get d k)).
End PyDict.

(** ** The graph classes *)

(** [Edge.weights]: the dict literal built by [add_edge], with exactly the
    keys ['light'], ['normal'] and ['rush_hour'].  Costs are Python [int]s,
    as [create_map] passes them: exact, summed without rounding.  The
    [float] costs that [add_vertices_menu] reads are outside this model. *)
Record Weights : Type := mkWeights {
  light : Z;
  normal : Z;
  rush_hour : Z
}.

(** [weights.get(key)]. *)
Definition weights_get (w : Weights) (key : string) : option Z :=
  if decide (key = "light") then Some (light w)
  else if decide (key = "normal") then Some (normal w)
  else if decide (key = "rush_hour") then Some (rush_hour w)
  else None.

(** The two endpoint references of an edge are kept as identifiers. *)
Record Edge : Type := mkEdge {
  vertex1 : Z;
  vertex2 : Z;
  weights : Weights
}.

Definition get_weight (e : Edge) (traffic_condition : string) : Z :=
  default (normal (weights e)) (weights_get (weights e) traffic_condition).

Record Vertex : Type := mkVertex {
  vid : Z;
  vx : Q;
  vy : Q;
  edges : list (Z * Edge)
}.

Record Graph : Type := mkGraph {
  vertices : gmap Z Vertex
}.

Definition Graph_init : Graph := mkGraph ∅.

Definition set_vertices (f : gmap Z Vertex → gmap Z Vertex) (g : Graph) : Graph :=
  mkGraph (f (vertices g)).

Definition set_edges (f : list (Z * Edge) → list (Z * Edge)) (v : Vertex) : Vertex :=
  mkVertex (vid v) (vx v) (vy v) (f (edges v)).

Definition add_vertex (id : Z) (x y : Q) : M Graph Vertex :=
  let vertex := mkVertex id x y [] in
  modify (set_vertices (insert id vertex)) ;;;
  ret vertex.

Definition add_edge (id1 id2 : Z) (light_traffic normal_traffic rush_hour : Z)
  : M Graph Edge :=
  vs <- gets vertices ;;
  if negb (bool_decide (id1 ∈ dom vs)) || negb (bool_decide (id2 ∈ dom vs))
  then raise (ValueError "Both vertices must exist in the graph")
  else
    let weights := mkWeights light_traffic normal_traffic rush_hour in
    let edge := mkEdge id1 id2 weights in
    modify (set_vertices (alter (set_edges (λ es, dict_set es id2 edge)) id1)) ;;;
    modify (set_vertices (alter (set_edges (λ es, dict_set es id1 edge)) id2)) ;;;
    ret edge.

(** ** Distances: numbers extended with [float('infinity')] *)

Inductive Dist : Type :=
| Fin (z : Z)
| Inf.

Global Instance Dist_eq_dec : EqDecision Dist.
Proof. solve_decision. Defined.

Definition dist_add (d : Dist) (w : Z) : Dist :=
  match d with
  | Fin z => Fin (z + w)
  | Inf => Inf
  end.

Definition dist_ltb (a b : Dist) : bool :=
  match a, b with
  | Fin p, Fin q => p <? q
  | Fin _, Inf => true
  | Inf, _ => false
  end.

Definition dist_le (a b : Dist) : Prop :=
  match a, b with
  | Fin p, Fin q => p ≤ q
  | _, Inf => True
  | Inf, Fin _ => False
  end.

(** ** [heapq] on [(distance, vertex_id)] tuples *)

Definition entry : Type := Dist * Z.

(** Python's [<] on tuples: lexicographic. *)
Definition entry_ltb (a b : entry) : bool :=
  dist_ltb a.1 b.1 || (bool_decide (a.1 = b.1) && (a.2 <? b.2)).

Definition heappush (pq : list entry) (item : entry) : list entry := item :: pq.

(** [heappop] takes the least tuple out of the queue; [None] stands for the
    empty queue, on which the loop condition [while pq] is false. *)
Fixpoint heappop (pq : list entry) : option (entry * list entry) :=
  match pq with
  | [] => None
  | item :: rest =>
      match heappop rest with
      | None => Some (item, [])
      | Some (least, rest') =>
          if entry_ltb least item then Some (least, item :: rest')
          else Some (item, rest)
      end
  end.

(** ** Dijkstra's algorithm *)

(** The local variables of [Graph.dijkstra]. *)
Record LoopState : Type := mkLoopState {
  distances : gmap Z Dist;
  predecessors : gmap Z (option Z);
  pq : list entry;
  visited : gset Z
}.

Definition with_pq (q : list entry) (st : LoopState) : LoopState :=
  mkLoopState (distances st) (predecessors st) q (visited st).

Definition with_visited (s : gset Z) (st : LoopState) : LoopState :=
  mkLoopState (distances st) (predecessors st) (pq st) s.

Fixpoint for_each {A B} (body : A → B → result A) (a : A) (l : list B) : result A :=
  match l with
  | [] => Ok a
  | b :: l' => result_bind (body a b) (λ a', for_each body a' l')
  end.

(** Body of [for neighbor_id, edge in self.vertices[current_id].edges.items()]. *)
Definition relax (traffic_condition : string) (current_distance : Dist)
    (current_id : Z) (st : LoopState) (item : Z * Edge) : result LoopState :=
  let '(neighbor_id, edge) := item in
  if decide (neighbor_id ∈ visited st) then Ok st
  else
    let weight := get_weight edge traffic_condition in
    let distance := dist_add current_distance weight in
    result_bind (subscript (distances st !! neighbor_id)) (λ old,
      if dist_ltb distance old then
        Ok (mkLoopState (<[neighbor_id := distance]> (distances st))
                        (<[neighbor_id := Some current_id]> (predecessors st))
                        (heappush (pq st) (distance, neighbor_id))
                        (visited st))
      else Ok st).

(** The part of the [while] body below the test for [end_id]: skip a
    vertex that was visited already, otherwise mark it and relax its edges. *)
Definition visit_vertex (traffic_condition : string) (current_distance : Dist)
    (current_id : Z) (st : LoopState) : M Graph LoopState :=
  if decide (current_id ∈ visited st) then ret st
  else
    let st := with_visited ({[current_id]} ∪ visited st) st in
    vs <- gets vertices ;;
    vertex <- liftR (subscript (vs !! current_id)) ;;
    liftR (for_each (relax traffic_condition current_distance current_id) st
             (edges vertex)).

Fixpoint dijkstra_while (fuel : nat) (end_id : Z) (traffic_condition : string)
    (st : LoopState) : M Graph LoopState :=
  match fuel with
  | O => liftR OutOfFuel
  | S fuel' =>
      match heappop (pq st) with
      | None => ret st
      | Some ((current_distance, current_id), pq') =>
          let st := with_pq pq' st in
          if decide (current_id = end_id) then ret st
          else
            st' <- visit_vertex traffic_condition current_distance current_id st ;;
            dijkstra_while fuel' end_id traffic_condition st'
      end
  end.

(** [while current_id is not None: path.append(current_id); ...]. *)
Fixpoint walk_back (fuel : nat) (preds : gmap Z (option Z)) (current_id : option Z)
    (path : list Z) : result (list Z) :=
  match current_id with
  | None => Ok path
  | Some cur =>
      match fuel with
      | O => OutOfFuel
      | S fuel' =>
          result_bind (subscript (preds !! cur)) (λ prev,
            walk_back fuel' preds prev (path ++ [cur])%list)
      end
  end.

(** Every pop but the first is paid for by a push, and a vertex pushes at
    most once per outgoing edge: this many iterations always suffice. *)
Definition degree_sum (l : list (Z * Vertex)) : nat :=
  sum_list_with (λ kv, length (edges kv.2)) l.

Definition loop_fuel (vs : gmap Z Vertex) : nat := 2 + degree_sum (map_to_list vs).
Definition path_fuel (vs : gmap Z Vertex) : nat := 1 + size vs.

Definition dijkstra_init (vs : gmap Z Vertex) (start_id : Z) : LoopState :=
  mkLoopState (<[start_id := Fin 0]> ((λ _, Inf) <$> vs))
              ((λ _, None) <$> vs)
              [(Fin 0, start_id)]
              ∅.

Definition dijkstra (start_id end_id : Z) (traffic_condition : string)
  : M Graph (Dist * list Z) :=
  vs <- gets vertices ;;
  if negb (bool_decide (start_id ∈ dom vs)) || negb (bool_decide (end_id ∈ dom vs))
  then raise (ValueError "Both start and end vertices must exist in the graph")
  else
    st <- dijkstra_while (loop_fuel vs) end_id traffic_condition
            (dijkstra_init vs start_id) ;;
    path <- liftR (walk_back (path_fuel vs) (predecessors st) (Some end_id) []) ;;
    total <- liftR (subscript (distances st !! end_id)) ;;
    ret (total, rev path).

(** The variant the specification allows as well: the same loop without
    [if current_id == end_id: break], run until the frontier is empty. *)
Fixpoint dijkstra_while_full (fuel : nat) (traffic_condition : string)
    (st : LoopState) : M Graph LoopState :=
  match fuel with
  | O => liftR OutOfFuel
  | S fuel' =>
      match heappop (pq st) with
      | None => ret st
      | Some ((current_distance, current_id), pq') =>
          let st := with_pq pq' st in
          st' <- visit_vertex traffic_condition current_distance current_id st ;;
          dijkstra_while_full fuel' traffic_condition st'
      end
  end.

Definition dijkstra_full (start_id end_id : Z) (traffic_condition : string)
  : M Graph (Dist * list Z) :=
  vs <- gets vertices ;;
  if negb (bool_decide (start_id ∈ dom vs)) || negb (bool_decide (end_id ∈ dom vs))
  then raise (ValueError "Both start and end vertices must exist in the graph")
  else
    st <- dijkstra_while_full (loop_fuel vs) traffic_condition
            (dijkstra_init vs start_id) ;;
    path <- liftR (walk_back (path_fuel vs) (predecessors st) (Some end_id) []) ;;
    total <- liftR (subscript (distances st !! end_id)) ;;
    ret (total, rev path).

(** ** Route narration *)

Definition Qlt_bool (a b : Q) : bool := negb (Qle_bool b a).

(** The comparison chain of [_get_direction] on the angle in degrees.
    Comparisons of finite floats are exact, so the angle is a rational. *)
Definition direction_of_angle (angle : Q) : string :=
  if Qle_bool (-22.5) angle && Qle_bool angle 22.5 then "east"
  else if Qlt_bool 22.5 angle && Qle_bool angle 67.5 then "northeast"
  else if Qlt_bool 67.5 angle && Qle_bool angle 112.5 then "north"
  else if Qlt_bool 112.5 angle && Qle_bool angle 157.5 then "northwest"
  else if Qlt_bool 157.5 angle || Qle_bool angle (-157.5) then "west"
  else if Qlt_bool (-157.5) angle && Qle_bool angle (-112.5) then "southwest"
  else if Qlt_bool (-112.5) angle && Qle_bool angle (-67.5) then "south"
  else "southeast".

(** Sum of the edge costs along a vertex sequence, looked up the way
    [get_path_description] does: [self.vertices[a].edges[b].get_weight(c)]
    for each consecutive pair; [None] where a subscript would fail. *)
Fixpoint path_cost (vs : gmap Z Vertex) (traffic_condition : string)
    (path : list Z) : option Z :=
  match path with
  | current_id :: (next_id :: _) as rest =>
      current_vertex ← vs !! current_id;
      edge ← dict_get (edges current_vertex) next_id;
      total ← path_cost vs traffic_condition rest;
      Some (get_weight edge traffic_condition + total)
  | _ => Some 0
  end.

Definition newline : string := String (Ascii.ascii_of_nat 10) EmptyString.

Section Narrator.
(** [math.degrees(math.atan2(dy, dx))]: the floating-point library call
    is not modelled; it is a parameter of the narrator. *)
Variable degrees_atan2 : Q → Q → Q.

Definition _get_direction (dx dy : Q) : string :=
  let angle := degrees_atan2 dy dx in
  direction_of_angle angle.

(** [for i in range(len(path) - 1)], on the consecutive pairs of [path];
    the accumulator holds [description] and [total_time]. *)
Fixpoint describe_steps (traffic_condition : string) (path : list Z)
    (acc : list string * Z) : M Graph (list string * Z) :=
  match path with
  | current_id :: (next_id :: _) as rest =>
      vs <- gets vertices ;;
      current_vertex <- liftR (subscript (vs !! current_id)) ;;
      next_vertex <- liftR (subscript (vs !! next_id)) ;;
      edge <- liftR (subscript (dict_get (edges current_vertex) next_id)) ;;
      let time := get_weight edge traffic_condition in
      let total_time := acc.2 + time in
      let dx := (vx next_vertex - vx current_vertex)%Q in
      let dy := (vy next_vertex - vy current_vertex)%Q in
      let direction := _get_direction dx dy in
      let line := "From vertex " +:+ pretty current_id +:+ " go " +:+ direction
                  +:+ " to vertex " +:+ pretty next_id
                  +:+ " (" +:+ pretty time +:+ " minutes)" in
      describe_steps traffic_condition rest ((acc.1 ++ [line])%list, total_time)
  | _ => ret acc
  end.

Definition get_path_description (path : list Z) (traffic_condition : string)
  : M Graph string :=
  if bool_decide (path = []) || bool_decide (length path < 2)%nat
  then ret "Invalid path"
  else
    acc <- describe_steps traffic_condition path ([], 0) ;;
    let description :=
      (acc.1 ++ [newline +:+ "Total time: " +:+ pretty acc.2 +:+ " minutes"])%list in
    ret (String.concat newline description).
End Narrator.

(** ** The dispatch system *)

Record PoliceDispatchSystem : Type := mkDispatch {
  graph : Graph;
  cops : list (string * Z)
}.

Definition set_graph (g : Graph) (s : PoliceDispatchSystem) : PoliceDispatchSystem :=
  mkDispatch g (cops s).

Definition set_cops (f : list (string * Z) → list (string * Z))
    (s : PoliceDispatchSystem) : PoliceDispatchSystem :=
  mkDispatch (graph s) (f (cops s)).

Definition add_cop (cop_id : string) (vertex_id : Z) : M PoliceDispatchSystem unit :=
  g <- gets graph ;;
  if negb (bool_decide (vertex_id ∈ dom (vertices g)))
  then raise (ValueError "Invalid vertex ID")
  else modify (set_cops (λ cs, dict_set cs cop_id vertex_id)).

Definition remove_cop (cop_id : string) : M PoliceDispatchSystem unit :=
  cs <- gets cops ;;
  if dict_mem cs cop_id then modify (set_cops (λ cs, dict_del cs cop_id))
  else ret tt.

Fixpoint for_eachM {S A B} (body : A → B → M S A) (a : A) (l : list B) : M S A :=
  match l with
  | [] => ret a
  | b :: l' => a' <- body a b ;; for_eachM body a' l'
  end.

(** [(nearest_cop, shortest_time, best_path)]; each component may be the
    Python value [None]. *)
Definition Nearest : Type := option string * option Dist * option (list Z).

(** Body of [for cop_id, cop_location in self.cops.items()]; the accumulator
    holds [nearest_cop], [shortest_time] and [best_path]. *)
Definition try_cop (crime_location : Z) (traffic_condition : string)
    (acc : option string * Dist * option (list Z)) (item : string * Z)
  : M PoliceDispatchSystem (option string * Dist * option (list Z)) :=
  let '(cop_id, cop_location) := item in
  r <- zoom graph set_graph (dijkstra cop_location crime_location traffic_condition) ;;
  let '(time, path) := r in
  if dist_ltb time acc.1.2 then ret (Some cop_id, time, Some path)
  else ret acc.

Definition find_nearest_cop (crime_location : Z) (traffic_condition : string)
  : M PoliceDispatchSystem Nearest :=
  cs <- gets cops ;;
  match cs with
  | [] => ret (None, None, None)
  | _ =>
      best <- for_eachM (try_cop crime_location traffic_condition)
                (None, Inf, None) cs ;;
      ret (best.1.1, Some best.1.2, best.2)
  end.

(** ** Graph-theoretic vocabulary of the specification *)

(** Graphs built by [add_vertex] and [add_edge]: adjacency keys are unique
    (they are dict keys) and name vertices of the graph. *)
Definition wf_vertices (vs : gmap Z Vertex) : Prop :=
  ∀ u vu, vs !! u = Some vu →
    NoDup (edges vu).*1 ∧ ∀ n e, (n, e) ∈ edges vu → n ∈ dom vs.

Definition wf_graph (g : Graph) : Prop := wf_vertices (vertices g).

(** [b] can be reached from [a] along adjacency entries. *)
Inductive reachable (vs : gmap Z Vertex) (a : Z) : Z → Prop :=
| reach_refl : reachable vs a a
| reach_step u vu n e :
    reachable vs a u → vs !! u = Some vu → dict_get (edges vu) n = Some e →
    reachable vs a n.

(** A path is a vertex sequence from [a] to [b] whose cost can be summed. *)
Definition is_path (vs : gmap Z Vertex) (c : string) (a b : Z) (p : list Z) (k : Z) : Prop :=
  head p = Some a ∧ last p = Some b ∧ path_cost vs c p = Some k.

Definition nonneg_costs (vs : gmap Z Vertex) (c : string) : Prop :=
  ∀ u vu n e, vs !! u = Some vu → (n, e) ∈ edges vu → 0 ≤ get_weight e c.

(** ** Checkers and sample maps *)

Definition wf_check (vs : gmap Z Vertex) : bool :=
  bool_decide (map_Forall (λ _ vu,
    NoDup (edges vu).*1 ∧ Forall (λ ne, ne.1 ∈ dom vs) (edges vu)) vs).

Definition nonneg_check (vs : gmap Z Vertex) (c : string) : bool :=
  bool_decide (map_Forall (λ _ vu,
    Forall (λ ne : Z * Edge, 0 ≤ get_weight ne.2 c) (edges vu)) vs).

(** No adjacency entry leaves the vertex set [X]. *)
Definition closed_check (vs : gmap Z Vertex) (X : gset Z) : bool :=
  bool_decide (map_Forall (λ u vu,
    u ∈ X → Forall (λ ne : Z * Edge, ne.1 ∈ X) (edges vu)) vs).

(** The state an object is left in by a sequence of calls. *)
Definition exec {S A} (m : M S A) (s : S) : S := (m s).2.

(** Three locations in a row, as in the specification's scenario. *)
Definition scenario_graph : Graph :=
  exec (add_vertex 0 0 0 ;;; (add_vertex 1 1 0 ;;; (add_vertex 2 2 0 ;;;
        (add_edge 0 1 4 5 9 ;;; add_edge 1 2 4 5 9)))) Graph_init.

(** The same with a fourth location that no road reaches. *)
Definition island_graph : Graph :=
  exec (add_vertex 3 5 5) scenario_graph.

(** The same with a slow direct road between the two ends. *)
Definition detour_graph : Graph :=
  exec (add_edge 0 2 10 12 30) scenario_graph.

(** A graph whose four locations all lie on roads to location 0, at
    7, 3 and 9 minutes under normal traffic, and a directory with one
    resource at each of the three outer locations. *)
Definition star_graph : Graph :=
  exec (add_vertex 0 0 0 ;;; (add_vertex 1 1 0 ;;; (add_vertex 2 0 1 ;;;
        (add_vertex 3 (-1) (-1) ;;; (add_edge 0 1 5 7 20 ;;;
        (add_edge 0 2 2 3 8 ;;; add_edge 0 3 7 9 25)))))) Graph_init.

Definition star_dispatch : PoliceDispatchSystem :=
  mkDispatch star_graph [("R1", 1); ("R2", 2); ("R3", 3)].

(** One resource, on the mainland, and a target on the island. *)
Definition island_dispatch : PoliceDispatchSystem :=
  mkDispatch island_graph [("R1", 0)].

(** A stand-in for [math.degrees(math.atan2(dy, dx))] that is exact on the
    axes and the diagonals and picks the nearest of them by sign elsewhere;
    it serves to run the narrator on sample maps. *)
Definition compass_degrees (dy dx : Q) : Q :=
  match (dx ?= 0)%Q, (dy ?= 0)%Q with
  | Gt, Eq => 0
  | Gt, Gt => 45
  | Eq, Gt => 90
  | Lt, Gt => 135
  | Lt, Eq => 180
  | Lt, Lt => -135
  | Eq, Lt => -90
  | Gt, Lt => -45
  | Eq, Eq => 0
  end.

(** The sector convention in the words of the specification: the sector of
    a direction is closed at its midpoint minus 22.5 degrees and open at its
    midpoint plus 22.5 degrees, wrapping at plus or minus 180 degrees. *)
Definition spec_sector (angle : Q) : string :=
  if Qle_bool (-22.5) angle && Qlt_bool angle 22.5 then "east"
  else if Qle_bool 22.5 angle && Qlt_bool angle 67.5 then "northeast"
  else if Qle_bool 67.5 angle && Qlt_bool angle 112.5 then "north"
  else if Qle_bool 112.5 angle && Qlt_bool angle 157.5 then "northwest"
  else if Qle_bool 157.5 angle || Qlt_bool angle (-157.5) then "west"
  else if Qle_bool (-157.5) angle && Qlt_bool angle (-112.5) then "southwest"
  else if Qle_bool (-112.5) angle && Qlt_bool angle (-67.5) then "south"
  else "southeast".

(** ** The rest of the module *)

Global Instance Weights_eq_dec : EqDecision Weights.
Proof. solve_decision. Defined.

Global Instance Edge_eq_dec : EqDecision Edge.
Proof. solve_decision. Defined.

(** [self.vertices[u].edges[k]], with [None] where a subscript fails. *)
Definition adj (vs : gmap Z Vertex) (u k : Z) : option Edge :=
  v ← vs !! u; dict_get (edges v) k.

(** The calls of [create_map], in order: thirty [add_vertex] calls, then
    forty-two [add_edge] calls. *)
Definition create_map_vertices : list (Z * Q * Q) :=
  [(0, 0%Q, 0%Q); (1, 2%Q, 2%Q); (2, 0%Q, 1%Q); (3, 1%Q, (-1)%Q);
   (4, (-1)%Q, (-1)%Q); (5, 0%Q, 2%Q); (6, 4%Q, 2%Q); (7, 4%Q, (-2)%Q);
   (8, (-4)%Q, 2%Q); (9, (-4)%Q, (-2)%Q); (10, 0%Q, 4%Q); (11, 3%Q, 0%Q);
   (12, (-3)%Q, 0%Q); (13, 0%Q, (-3)%Q); (14, 6%Q, 3%Q); (15, 6%Q, (-3)%Q);
   (16, (-6)%Q, 3%Q); (17, (-6)%Q, (-3)%Q); (18, 0%Q, 6%Q); (19, 0%Q, (-5)%Q);
   (20, 5%Q, 0%Q); (21, (-5)%Q, 0%Q); (22, 8%Q, 0%Q); (23, (-8)%Q, 0%Q);
   (24, 0%Q, 8%Q); (25, 0%Q, (-7)%Q); (26, 6%Q, 6%Q); (27, (-6)%Q, 6%Q);
   (28, 6%Q, (-6)%Q); (29, (-6)%Q, (-6)%Q)].

Definition create_map_edges : list (Z * Z * Z * Z * Z) :=
  [(0, 11, 5, 8, 20); (0, 12, 5, 8, 20); (0, 13, 5, 8, 20); (1, 7, 6, 10, 22);
   (1, 20, 7, 12, 25); (3, 11, 6, 10, 22); (3, 15, 8, 15, 28); (4, 12, 6, 10, 22);
   (4, 13, 6, 10, 22); (5, 10, 7, 12, 25); (5, 11, 6, 10, 22); (5, 12, 6, 10, 22);
   (6, 7, 7, 12, 20); (8, 9, 7, 12, 20); (10, 11, 6, 10, 18); (10, 12, 6, 10, 18);
   (11, 13, 6, 10, 18); (12, 13, 6, 10, 18); (14, 15, 8, 12, 20); (16, 17, 8, 12, 20);
   (18, 20, 8, 12, 20); (18, 21, 8, 12, 20); (19, 20, 8, 12, 20); (19, 21, 8, 12, 20);
   (26, 27, 10, 15, 25); (28, 29, 10, 15, 25); (26, 24, 8, 12, 22); (28, 25, 8, 12, 22);
   (10, 18, 5, 11, 24); (12, 21, 6, 15, 29); (11, 20, 5, 11, 24); (13, 19, 5, 16, 30);
   (16, 23, 5, 11, 24); (14, 22, 5, 11, 24); (17, 29, 5, 11, 24); (15, 28, 5, 11, 24);
   (16, 27, 5, 11, 24); (14, 26, 5, 11, 24); (23, 17, 5, 11, 24); (15, 22, 5, 11, 24);
   (2, 0, 5, 11, 24); (21, 16, 7, 13, 12)].

Definition create_map_calls : M Graph unit :=
  for_eachM (λ _ '(id, x, y), (add_vertex id x y ;;; ret tt)) tt create_map_vertices ;;;
  for_eachM (λ _ '(id1, id2, l, n, r), (add_edge id1 id2 l n r ;;; ret tt)) tt
    create_map_edges.

Definition create_map : Graph := exec create_map_calls Graph_init.

(** The graphs the construction calls can produce from [Graph()]. *)
Inductive built : Graph → Prop :=
| built_init : built Graph_init
| built_vertex g id x y : built g → built (exec (add_vertex id x y) g)
| built_edge g id1 id2 l n r : built g → built (exec (add_edge id1 id2 l n r) g).

(** The same with [add_vertex] called on new ids only, as [create_map] and
    [add_vertices_menu] (which tests [vertex_id in graph.vertices]) do. *)
Inductive built_fresh : Graph → Prop :=
| fresh_init : built_fresh Graph_init
| fresh_vertex g id x y :
    built_fresh g → id ∉ dom (vertices g) → built_fresh (exec (add_vertex id x y) g)
| fresh_edge g id1 id2 l n r :
    built_fresh g → built_fresh (exec (add_edge id1 id2 l n r) g).

(** Every adjacency entry has its mirror image at the other endpoint. *)
Definition sym_vertices (vs : gmap Z Vertex) : Prop :=
  ∀ u k e, adj vs u k = Some e → adj vs k u = Some e.

Definition sym_check (vs : gmap Z Vertex) : bool :=
  bool_decide (map_Forall (λ u vu,
    Forall (λ ne : Z * Edge, adj vs ne.1 u = Some ne.2) (edges vu)) vs).

(** A vertex is stored under its own id, and an edge found at [u] under [k]
    joins [u] and [k]. *)
Definition labelled (vs : gmap Z Vertex) : Prop :=
  (∀ u vu, vs !! u = Some vu → vid vu = u) ∧
  (∀ u k e, adj vs u k = Some e →
     (vertex1 e = u ∧ vertex2 e = k) ∨ (vertex1 e = k ∧ vertex2 e = u)).

(** What the dispatch system keeps true of itself: a well-formed graph,
    one entry per resource, every resource at an existing vertex. *)
Definition dispatch_ok (s : PoliceDispatchSystem) : Prop :=
  wf_graph (graph s) ∧ NoDup (cops s).*1 ∧
  ∀ id loc, (id, loc) ∈ cops s → loc ∈ dom (vertices (graph s)).

Definition dispatch_check (s : PoliceDispatchSystem) : bool :=
  wf_check (vertices (graph s)) && bool_decide (NoDup (cops s).*1) &&
  bool_decide (Forall (λ il : string * Z, il.2 ∈ dom (vertices (graph s))) (cops s)).

(** The states the dispatch system can be in: [add_cop] and [remove_cop] on
    the directory, [add_vertex] and [add_edge] on the graph it shares with
    the menu. *)
Inductive dispatched : PoliceDispatchSystem → Prop :=
| dispatched_init : dispatched (mkDispatch Graph_init [])
| dispatched_add s cop_id vertex_id :
    dispatched s → dispatched (exec (add_cop cop_id vertex_id) s)
| dispatched_remove s cop_id :
    dispatched s → dispatched (exec (remove_cop cop_id) s)
| dispatched_vertex s id x y :
    dispatched s → dispatched (exec (zoom graph set_graph (add_vertex id x y)) s)
| dispatched_edge s id1 id2 l n r :
    dispatched s →
    dispatched (exec (zoom graph set_graph (add_edge id1 id2 l n r)) s).

(** ** Vocabulary of the proofs *)

(** A method is read-only when it hands back the state it was given,
    whatever its outcome. *)
Definition readonly {S A} (m : M S A) : Prop := ∀ s, (m s).2 = s.

(** [a] is not above [b] in the order of the heap. *)
Definition entry_le (a b : entry) : Prop := entry_ltb b a = false.

(** The same path notion, built from the source end. *)
Inductive walk (vs : gmap Z Vertex) (c : string) (a : Z) : Z → Z → Prop :=
| walk_refl : walk vs c a a 0
| walk_step u vu n e k :
    walk vs c a u k → vs !! u = Some vu → dict_get (edges vu) n = Some e →
    walk vs c a n (k + get_weight e c).

(** [l] lists [n], its predecessor, the predecessor of that, ... up to a
    vertex without predecessor. *)
Inductive chain (preds : gmap Z (option Z)) : Z → list Z → Prop :=
| chain_end n : preds !! n = Some None → chain preds n [n]
| chain_step n u l :
    preds !! n = Some (Some u) → chain preds u l → chain preds n (n :: l).

(** What is left of the loop: the queued tuples and the adjacency entries of
    the vertices not yet visited. *)
Definition open_degree (vs : gmap Z Vertex) (seen : gset Z) : nat :=
  sum_list_with (λ kv, if decide (kv.1 ∈ seen) then 0%nat else length (edges kv.2))
    (map_to_list vs).

Definition measure (vs : gmap Z Vertex) (st : LoopState) : nat :=
  (length (pq st) + open_degree vs (visited st))%nat.

(** Two states give the vertices of [X] the same distance and predecessor. *)
Definition agree_on (X : gset Z) (st st' : LoopState) : Prop :=
  ∀ v, v ∈ X →
    distances st' !! v = distances st !! v ∧
    predecessors st' !! v = predecessors st !! v.

(** The invariant of the loops of [dijkstra], for the vertices [vs], the
    source [s] and the condition [c].  [pend] is [None] at the head of the
    [while] loop and [Some (u, todo)] inside the [for] loop over the edges
    of [u], with [todo] the items not yet seen.
    - [inv_pq], [inv_open]: a queued tuple is never below the distance of its
      vertex, and the distance of an unvisited vertex is queued;
    - [inv_pred], [inv_nopred], [inv_chain]: a predecessor is a visited
      vertex one edge before, only the source is reached without one, and
      the links from a visited vertex never loop;
    - [inv_reach]: finite distances belong to reachable vertices;
    - [inv_mono], [inv_top], [inv_relaxed] (non-negative costs): visited
      distances are below everything queued, and every edge out of a visited
      vertex has been relaxed. *)
Record loop_inv (vs : gmap Z Vertex) (s : Z) (c : string)
    (pend : option (Z * list (Z * Edge))) (st : LoopState) : Prop := {
  inv_dom_d : ∀ v, is_Some (distances st !! v) ↔ is_Some (vs !! v);
  inv_dom_p : ∀ v, is_Some (predecessors st !! v) ↔ is_Some (vs !! v);
  inv_start_d : distances st !! s = Some (Fin 0);
  inv_start_p : predecessors st !! s = Some None;
  inv_first : s ∈ visited st ∨ (pq st = [(Fin 0, s)] ∧ visited st = ∅);
  inv_pq : ∀ d u, (d, u) ∈ pq st →
    ∃ z z', d = Fin z ∧ distances st !! u = Some (Fin z') ∧ z' ≤ z;
  inv_open : ∀ u z, u ∉ visited st → distances st !! u = Some (Fin z) →
    (Fin z, u) ∈ pq st;
  inv_vis : ∀ u, u ∈ visited st → ∃ z, distances st !! u = Some (Fin z);
  inv_pred : ∀ n u, predecessors st !! n = Some (Some u) →
    u ∈ visited st ∧
    ∃ vu e zu, vs !! u = Some vu ∧ dict_get (edges vu) n = Some e ∧
      distances st !! u = Some (Fin zu) ∧
      distances st !! n = Some (Fin (zu + get_weight e c));
  inv_nopred : ∀ n, predecessors st !! n = Some None →
    n = s ∨ distances st !! n = Some Inf;
  inv_chain : ∀ n, n ∈ visited st →
    ∃ l, chain (predecessors st) n l ∧ NoDup l ∧ ∀ x, x ∈ l → x ∈ visited st;
  inv_reach : ∀ n z, distances st !! n = Some (Fin z) → reachable vs s n;
  inv_mono : nonneg_costs vs c → ∀ u zu d v,
    u ∈ visited st → distances st !! u = Some (Fin zu) → (d, v) ∈ pq st →
    dist_le (Fin zu) d;
  inv_top : nonneg_costs vs c → ∀ u todo v zv zu,
    pend = Some (u, todo) → v ∈ visited st →
    distances st !! v = Some (Fin zv) → distances st !! u = Some (Fin zu) →
    zv ≤ zu;
  inv_relaxed : nonneg_costs vs c → ∀ u vu n e zu,
    u ∈ visited st → vs !! u = Some vu → (n, e) ∈ edges vu →
    (∀ todo, pend = Some (u, todo) → (n, e) ∉ todo) →
    distances st !! u = Some (Fin zu) →
    ∃ zn, distances st !! n = Some (Fin zn) ∧ zn ≤ zu + get_weight e c
}.

Arguments inv_dom_d {vs s c pend st}.
Arguments inv_dom_p {vs s c pend st}.
Arguments inv_start_d {vs s c pend st}.
Arguments inv_start_p {vs s c pend st}.
Arguments inv_first {vs s c pend st}.
Arguments inv_pq {vs s c pend st}.
Arguments inv_open {vs s c pend st}.
Arguments inv_vis {vs s c pend st}.
Arguments inv_pred {vs s c pend st}.
Arguments inv_nopred {vs s c pend st}.
Arguments inv_chain {vs s c pend st}.
Arguments inv_reach {vs s c pend st}.
Arguments inv_mono {vs s c pend st}.
Arguments inv_top {vs s c pend st}.
Arguments inv_relaxed {vs s c pend st}.

Ltac dist_cases :=
  repeat match goal with d : Dist |- _ => destruct d end;
  simpl in *; rewrite ?Z.ltb_lt, ?Z.ltb_ge in *; try done; try lia.

(** * Properties *)

(** ** The method monad *)

Lemma readonly_ret {S A} (a : A) : readonly (S:=S) (ret a).
Proof. done. Qed.

Lemma readonly_raise {S A} (e : exn) : readonly (S:=S) (A:=A) (raise e).
Proof. done. Qed.

Lemma readonly_gets {S A} (f : S → A) : readonly (gets f).
Proof. done. Qed.

Lemma readonly_liftR {S A} (r : result A) : readonly (S:=S) (liftR r).
Proof. done. Qed.

Lemma readonly_bind {S A B} (m : M S A) (k : A → M S B) :
  readonly m → (∀ a, readonly (k a)) → readonly (bind m k).
Proof.
  intros Hm Hk s. unfold bind. specialize (Hm s).
  destruct (m s) as [[a| |] s']; simpl in *; subst; auto.
  apply Hk.
Qed.

Lemma readonly_zoom {S T A} (get : S → T) (set : T → S → S) (m : M T A) :
  (∀ s, set (get s) s = s) → readonly m → readonly (zoom get set m).
Proof.
  intros Hset Hm s. unfold zoom. specialize (Hm (get s)).
  destruct (m (get s)) as [r t]; simpl in *; subst. apply Hset.
Qed.

Lemma readonly_for_eachM {S A B} (body : A → B → M S A) (l : list B) :
  (∀ a b, readonly (body a b)) → ∀ a, readonly (for_eachM body a l).
Proof.
  intros Hb. induction l as [|b l IH]; intros a; simpl.
  - apply readonly_ret.
  - apply readonly_bind; auto.
Qed.

Create HintDb frame discriminated.
#[export] Hint Resolve readonly_ret readonly_raise readonly_gets readonly_liftR : frame.

Lemma bind_ok {S A B} (m : M S A) (k : A → M S B) s a s' :
  m s = (Ok a, s') → bind m k s = k a s'.
Proof. intros H. unfold bind. by rewrite H. Qed.

(** ** Python dicts *)

Section PyDictFacts.
Context {K V : Type} `{EqDecision K}.
Implicit Types (d : list (K * V)) (k : K) (v : V).

Lemma dict_get_elem d k v : dict_get d k = Some v → (k, v) ∈ d.
Proof.
  induction d as [|[k' v'] d IH]; simpl; [done|].
  case_decide; intros E.
  - simplify_eq. left.
  - right. auto.
Qed.

Lemma dict_get_None d k : dict_get d k = None ↔ k ∉ d.*1.
Proof.
  induction d as [|[k' v'] d IH]; simpl.
  - split; [intros _; apply not_elem_of_nil | done].
  - rewrite not_elem_of_cons. case_decide; split; try done; naive_solver.
Qed.

Lemma elem_dict_get d k v : NoDup d.*1 → (k, v) ∈ d → dict_get d k = Some v.
Proof.
  induction d as [|[k' v'] d IH]; simpl; intros Hnd Hin.
  - by apply elem_of_nil in Hin.
  - apply NoDup_cons in Hnd as [Hk Hnd]. apply elem_of_cons in Hin as [E|Hin].
    + simplify_eq. by rewrite decide_True.
    + rewrite decide_False; [auto|]. intros ->. apply Hk.
      apply list_elem_of_fmap. by exists (k, v).
Qed.

Lemma dict_set_keys d k v :
  ∀ k', k' ∈ (dict_set d k v).*1 ↔ k' = k ∨ k' ∈ d.*1.
Proof.
  induction d as [|[k0 v0] d IH]; intros k'; simpl.
  - rewrite list_elem_of_singleton. set_solver.
  - case_decide; simpl; rewrite !elem_of_cons; [naive_solver|].
    rewrite IH. naive_solver.
Qed.

Lemma dict_set_NoDup d k v : NoDup d.*1 → NoDup (dict_set d k v).*1.
Proof.
  induction d as [|[k0 v0] d IH]; simpl; intros Hnd.
  - apply NoDup_singleton.
  - apply NoDup_cons in Hnd as [Hk Hnd]. case_decide; simpl.
    + subst. by apply NoDup_cons.
    + apply NoDup_cons. split; [|auto].
      rewrite dict_set_keys. naive_solver.
Qed.

Lemma dict_get_set d k v k' :
  dict_get (dict_set d k v) k' = if decide (k = k') then Some v else dict_get d k'.
Proof.
  induction d as [|[k0 v0] d IH]; simpl.
  - done.
  - destruct (decide (k0 = k)) as [->|Hne]; simpl.
    + destruct (decide (k = k')); done.
    + rewrite IH. destruct (decide (k0 = k')) as [->|?]; [|done].
      by rewrite decide_False.
Qed.

Lemma dict_set_elem d k v k' v' :
  (k', v') ∈ dict_set d k v → (k', v') = (k, v) ∨ (k', v') ∈ d.
Proof.
  induction d as [|[k0 v0] d IH]; simpl.
  - rewrite list_elem_of_singleton. auto.
  - case_decide; rewrite !elem_of_cons; naive_solver.
Qed.
End PyDictFacts.

(** ** Frame: the queries are read-only *)

Lemma readonly_visit_vertex c d u st : readonly (visit_vertex c d u st).
Proof.
  unfold visit_vertex. case_decide; auto with frame.
  repeat (apply readonly_bind; [auto with frame | intros ?]). auto with frame.
Qed.

Lemma readonly_dijkstra_while fuel e c : ∀ st, readonly (dijkstra_while fuel e c st).
Proof.
  induction fuel as [|fuel IH]; intros st; simpl; [auto with frame|].
  destruct (heappop (pq st)) as [[[d u] q']|]; [|auto with frame].
  case_decide; [auto with frame|].
  apply readonly_bind; [apply readonly_visit_vertex | auto].
Qed.

Lemma readonly_dijkstra a b c : readonly (dijkstra a b c).
Proof.
  unfold dijkstra. apply readonly_bind; [auto with frame | intros vs].
  destruct (_ || _); [auto with frame|].
  apply readonly_bind; [apply readonly_dijkstra_while | intros st].
  repeat (apply readonly_bind; [auto with frame | intros ?]). auto with frame.
Qed.

Lemma readonly_describe_steps atan c path : ∀ acc, readonly (describe_steps atan c path acc).
Proof.
  induction path as [|u [|n rest] IH]; intros acc; simpl; auto with frame.
  repeat (apply readonly_bind; [auto with frame | intros ?]). apply IH.
Qed.

Lemma readonly_get_path_description atan path c :
  readonly (get_path_description atan path c).
Proof.
  unfold get_path_description. destruct (_ || _); [auto with frame|].
  apply readonly_bind; [apply readonly_describe_steps | auto with frame].
Qed.

Lemma set_graph_id s : set_graph (graph s) s = s.
Proof. by destruct s. Qed.

Lemma readonly_try_cop t c acc item : readonly (try_cop t c acc item).
Proof.
  unfold try_cop. destruct item as [cop_id loc].
  apply readonly_bind.
  - apply readonly_zoom; [apply set_graph_id | apply readonly_dijkstra].
  - intros [time path]. destruct (dist_ltb _ _); auto with frame.
Qed.

Lemma readonly_find_nearest_cop t c : readonly (find_nearest_cop t c).
Proof.
  unfold find_nearest_cop. apply readonly_bind; [auto with frame | intros cs].
  destruct cs as [|x cs]; [auto with frame|].
  apply readonly_bind; [|auto with frame].
  apply readonly_for_eachM. intros. apply readonly_try_cop.
Qed.

(** ** The priority queue *)

Lemma entry_le_trans a b c : entry_le a b → entry_le b c → entry_le a c.
Proof.
  unfold entry_le, entry_ltb.
  destruct a as [[p|] i], b as [[q|] j], c as [[r|] k]; simpl;
    rewrite ?orb_false_iff, ?andb_false_iff, ?bool_decide_eq_false,
      ?Z.ltb_ge, ?Z.ltb_lt; intros H1 H2;
    repeat match goal with
      | H : _ ∧ _ |- _ => destruct H
      | |- _ ∧ _ => split
      end; try done; try lia.
  destruct (decide (r = p)) as [->|]; [|left; congruence].
  assert (q = p) as -> by lia. right.
  destruct H2 as [?|?]; [done|]. destruct H0 as [?|?]; [done|]. lia.
Qed.

Lemma entry_ltb_le a b : entry_ltb a b = true → entry_le a b.
Proof.
  unfold entry_le, entry_ltb.
  destruct a as [[p|] i], b as [[q|] j]; simpl;
    rewrite ?orb_true_iff, ?andb_true_iff, ?orb_false_iff, ?andb_false_iff,
      ?bool_decide_eq_true, ?bool_decide_eq_false, ?Z.ltb_ge, ?Z.ltb_lt;
    try naive_solver lia.
Qed.

Lemma entry_le_dist a b : entry_le a b → dist_le a.1 b.1.
Proof.
  unfold entry_le, entry_ltb.
  destruct a as [[p|] i], b as [[q|] j]; simpl; try done;
    rewrite orb_false_iff; rewrite ?Z.ltb_ge; intros [? _]; done || lia.
Qed.

Lemma heappop_None q : heappop q = None ↔ q = [].
Proof.
  destruct q as [|x q]; simpl; [done|].
  destruct (heappop q) as [[m q']|]; [destruct (entry_ltb m x)|]; done.
Qed.

Lemma heappop_Some q m q' :
  heappop q = Some (m, q') → q ≡ₚ m :: q' ∧ ∀ x, x ∈ q' → entry_le m x.
Proof.
  revert m q'. induction q as [|x q IH]; intros m q'; simpl; [done|].
  destruct (heappop q) as [[m0 q0]|] eqn:Hq.
  - destruct (IH _ _ eq_refl) as [Hp Hle].
    destruct (entry_ltb m0 x) eqn:Hlt; intros ?; simplify_eq.
    + split; [rewrite Hp; apply Permutation_swap|].
      intros y [->|Hy]%elem_of_cons; [by apply entry_ltb_le | auto].
    + split; [done|]. intros y Hy. rewrite Hp in Hy.
      apply elem_of_cons in Hy as [->|Hy]; [done|].
      eapply entry_le_trans; [exact Hlt | auto].
  - intros ?; simplify_eq. apply heappop_None in Hq as ->.
    split; [done|]. intros y Hy. by apply elem_of_nil in Hy.
Qed.

Lemma heappop_singleton x : heappop [x] = Some (x, []).
Proof. done. Qed.

(** ** Invariants of the main loop *)

Lemma agree_on_refl X st : agree_on X st st.
Proof. done. Qed.

Lemma agree_on_trans X Y st1 st2 st3 :
  X ⊆ Y → agree_on X st1 st2 → agree_on Y st2 st3 → agree_on X st1 st3.
Proof.
  intros Hsub H12 H23 v Hv. destruct (H12 v Hv) as [<- <-]. apply H23. auto.
Qed.

Lemma open_degree_empty vs : open_degree vs ∅ = degree_sum (map_to_list vs).
Proof.
  unfold open_degree, degree_sum. induction (map_to_list vs) as [|kv l IH]; simpl; [done|].
  rewrite IH. by rewrite decide_False by set_solver.
Qed.

Lemma open_degree_visit vs u vu (seen : gset Z) :
  vs !! u = Some vu → u ∉ seen →
  (open_degree vs ({[u]} ∪ seen) + length (edges vu) = open_degree vs seen)%nat.
Proof.
  intros Hu%elem_of_map_to_list Hseen. unfold open_degree.
  pose proof (NoDup_fst_map_to_list vs) as Hnd.
  induction (map_to_list vs) as [|[k v] l IH]; simpl in *.
  - by apply elem_of_nil in Hu.
  - apply NoDup_cons in Hnd as [Hk Hnd].
    apply elem_of_cons in Hu as [[= <- <-]|Hu].
    + rewrite decide_True by set_solver. rewrite decide_False by done.
      assert (∀ l : list (Z * Vertex), u ∉ l.*1 →
        sum_list_with (λ kv, if decide (kv.1 ∈ {[u]} ∪ seen) then 0%nat
                             else length (edges kv.2)) l =
        sum_list_with (λ kv, if decide (kv.1 ∈ seen) then 0%nat
                             else length (edges kv.2)) l) as Hsame.
      { clear. intros l. induction l as [|[k v] l IH]; simpl; [done|].
        intros [Hne Hl]%not_elem_of_cons. rewrite IH by done. f_equal.
        apply decide_ext. set_solver. }
      rewrite Hsame by done. lia.
    + assert (k ≠ u).
      { intros ->. apply Hk. apply list_elem_of_fmap. by exists (u, vu). }
      rewrite <- (IH Hu Hnd).
      rewrite (decide_ext (k ∈ {[u]} ∪ seen) (k ∈ seen)) by set_solver. lia.
Qed.

Lemma relax_pure c d u st item st' :
  relax c d u st item = Ok st' →
  visited st' = visited st ∧ agree_on (visited st) st st' ∧
  (length (pq st') ≤ S (length (pq st)))%nat.
Proof.
  unfold relax. destruct item as [n e]. case_decide as Hn.
  { intros [= <-]. split_and!; [done..|lia]. }
  destruct (distances st !! n) as [dn|]; simpl; [|done].
  destruct (dist_ltb _ _); intros [= <-]; simpl; (split_and!; [done| |lia]); [|done].
  intros v Hv. simpl. rewrite !lookup_insert_ne by (intros ->; done). done.
Qed.

Section Invariants.
Variables (vs : gmap Z Vertex) (s : Z) (c : string).
Hypothesis Hwf : wf_vertices vs.

Local Abbreviation inv := (loop_inv vs s c).

Lemma chain_agree preds preds' n l :
  chain preds n l → (∀ x, x ∈ l → preds' !! x = preds !! x) → chain preds' n l.
Proof.
  induction 1 as [n Hn|n u l Hn Hc IH]; intros Hag.
  - apply chain_end. rewrite Hag; [done | left].
  - apply chain_step with u.
    + rewrite Hag; [done | left].
    + apply IH. intros x Hx. apply Hag. by right.
Qed.

Lemma chain_head preds n l : chain preds n l → ∃ l', l = n :: l'.
Proof. destruct 1; eauto. Qed.

Lemma inv_init : s ∈ dom vs → inv None (dijkstra_init vs s).
Proof.
  intros Hs. apply elem_of_dom in Hs as Hs'.
  split; simpl.
  - intros v. rewrite lookup_insert. case_decide; subst;
      rewrite ?lookup_fmap, ?fmap_is_Some; naive_solver.
  - intros v. by rewrite lookup_fmap, fmap_is_Some.
  - apply lookup_insert_eq.
  - rewrite lookup_fmap. destruct Hs' as [? ->]. done.
  - by right.
  - intros d u [= -> ->]%list_elem_of_singleton. exists 0, 0.
    rewrite lookup_insert_eq. done.
  - intros u z _. rewrite lookup_insert. case_decide; subst.
    + intros [= <-]. left.
    + rewrite lookup_fmap. destruct (vs !! u); done.
  - set_solver.
  - intros n u. rewrite lookup_fmap. destruct (vs !! n); done.
  - intros n Hn. destruct (decide (n = s)) as [|Hne]; [by left|right].
    rewrite lookup_insert_ne by done. rewrite lookup_fmap in Hn. rewrite lookup_fmap.
    destruct (vs !! n); done.
  - set_solver.
  - intros n z. rewrite lookup_insert. case_decide; subst; [constructor|].
    rewrite lookup_fmap. destruct (vs !! n); done.
  - set_solver.
  - done.
  - set_solver.
Qed.

Lemma pop_skip st d u q' :
  inv None st → heappop (pq st) = Some ((d, u), q') → u ∈ visited st →
  inv None (with_pq q' st).
Proof.
  intros [] [Hperm Hmin]%heappop_Some Hu.
  assert (Hsub : ∀ x, x ∈ q' → x ∈ pq st).
  { intros x Hx. rewrite Hperm. by right. }
  split; simpl; try done.
  - left. destruct inv_first0 as [?|[_ Hemp]]; [done|]. set_solver.
  - intros d0 u0 Hin. auto.
  - intros u0 z Hu0 Hd. specialize (inv_open0 _ _ Hu0 Hd).
    rewrite Hperm in inv_open0.
    apply elem_of_cons in inv_open0 as [?|?]; [by simplify_eq|done].
  - intros Hnn u0 zu d0 v ? ? Hin. eapply inv_mono0; eauto.
Qed.

Lemma pop_visit st d u q' :
  inv None st → heappop (pq st) = Some ((d, u), q') → u ∉ visited st →
  ∃ zd vu, d = Fin zd ∧ vs !! u = Some vu ∧ distances st !! u = Some (Fin zd) ∧
    inv (Some (u, edges vu)) (with_visited ({[u]} ∪ visited st) (with_pq q' st)).
Proof.
  intros [] [Hperm Hmin]%heappop_Some Hu.
  assert (Hsub : ∀ x, x ∈ q' → x ∈ pq st).
  { intros x Hx. rewrite Hperm. by right. }
  assert (Hhd : (d, u) ∈ pq st) by (rewrite Hperm; left).
  destruct (inv_pq0 _ _ Hhd) as (z & z' & -> & Hdu & Hle).
  assert (z' = z) as ->.
  { pose proof (inv_open0 _ _ Hu Hdu) as Hin. rewrite Hperm in Hin.
    apply elem_of_cons in Hin as [?|Hin]; [by simplify_eq|].
    apply Hmin, entry_le_dist in Hin. simpl in Hin. lia. }
  assert (is_Some (vs !! u)) as [vu Hvu] by (apply inv_dom_d0; eauto).
  exists z, vu. split_and!; try done.
  split; simpl; try done.
  - left. destruct inv_first0 as [?|[Hq _]]; [set_solver|].
    rewrite Hq in Hhd. apply list_elem_of_singleton in Hhd. simplify_eq. set_solver.
  - intros d0 u0 Hin. auto.
  - intros u0 z0 Hu0 Hd.
    assert (u0 ∉ visited st) as Hu0' by set_solver.
    specialize (inv_open0 _ _ Hu0' Hd). rewrite Hperm in inv_open0.
    apply elem_of_cons in inv_open0 as [?|?]; [simplify_eq; set_solver|done].
  - intros u0 [->%elem_of_singleton|?]%elem_of_union; eauto.
  - intros n u0 Hp. destruct (inv_pred0 _ _ Hp) as [? ?]. split; [set_solver|done].
  - intros n [->%elem_of_singleton|Hn]%elem_of_union.
    + assert (is_Some (predecessors st !! u)) as [[u'|] Hp]
        by (apply inv_dom_p0; eauto).
      * destruct (inv_pred0 _ _ Hp) as [Hu' _].
        destruct (inv_chain0 _ Hu') as (l & Hc & Hnd & Hl).
        exists (u :: l). split_and!.
        -- by apply chain_step with u'.
        -- apply NoDup_cons. split; [|done]. intros ?%Hl. done.
        -- intros x [->|?%Hl]%elem_of_cons; set_solver.
      * exists [u]. split_and!; [by apply chain_end|apply NoDup_singleton|].
        intros x ->%list_elem_of_singleton. set_solver.
    + destruct (inv_chain0 _ Hn) as (l & Hc & Hnd & Hl).
      exists l. split_and!; [done..|]. intros x ?%Hl. set_solver.
  - intros Hnn u0 zu d0 v [->%elem_of_singleton|Hu0]%elem_of_union Hd Hin.
    + simplify_eq. apply Hmin, entry_le_dist in Hin. done.
    + eapply inv_mono0; eauto.
  - intros Hnn u0 todo v zv zu [= <- <-] Hv Hdv Hd0.
    rewrite Hdu in Hd0. injection Hd0 as <-.
    apply elem_of_union in Hv as [->%elem_of_singleton|Hv].
    + rewrite Hdu in Hdv. injection Hdv as <-. lia.
    + exact (inv_mono0 Hnn v zv (Fin z) u Hv Hdv Hhd).
  - intros Hnn u0 vu0 n e zu [->%elem_of_singleton|Hu0]%elem_of_union Hvu0 Hin Hpend Hd0.
    + simplify_eq. by destruct (Hpend _ eq_refl).
    + eapply inv_relaxed0; eauto. intros ? [=].
Qed.

(** An item of the [for] loop that changes nothing is done once its edge
    is seen to be relaxed. *)
Lemma inv_item_done st u vu n e todo :
  inv (Some (u, (n, e) :: todo)) st → vs !! u = Some vu → (n, e) ∈ edges vu →
  (nonneg_costs vs c → ∀ zu, distances st !! u = Some (Fin zu) →
     ∃ zn, distances st !! n = Some (Fin zn) ∧ zn ≤ zu + get_weight e c) →
  inv (Some (u, todo)) st.
Proof.
  intros [] Hvu Hine Hrel. split; try done.
  - intros Hnn u0 todo0 v zv zu [= <- <-]. by eapply inv_top0.
  - intros Hnn u0 vu0 n0 e0 zu Hu0 Hvu0 Hin Hpend Hd0.
    destruct (decide (u0 = u ∧ n0 = n)) as [[-> ->]|Hne].
    + simplify_eq. destruct (Hwf _ _ Hvu) as [Hnd _].
      assert (dict_get (edges vu) n = Some e0) as He0 by by apply elem_dict_get.
      assert (dict_get (edges vu) n = Some e) as He by by apply elem_dict_get.
      assert (e0 = e) as -> by congruence.
      exact (Hrel Hnn _ Hd0).
    + eapply inv_relaxed0; eauto.
      intros todo0 [= <- <-] [?|?]%elem_of_cons.
      * simplify_eq. naive_solver.
      * by eapply Hpend.
Qed.

Lemma relax_step st u vu zd n e todo :
  inv (Some (u, (n, e) :: todo)) st → u ∈ visited st → vs !! u = Some vu →
  (n, e) ∈ edges vu → distances st !! u = Some (Fin zd) →
  ∃ st', relax c (Fin zd) u st (n, e) = Ok st' ∧ inv (Some (u, todo)) st'.
Proof.
  intros Hinv Hu Hvu Hin Hdu. unfold relax.
  destruct (Hwf _ _ Hvu) as [Hnd Hdom].
  assert (is_Some (distances st !! n)) as [dn Hdn].
  { apply (inv_dom_d Hinv). apply elem_of_dom. eauto. }
  case_decide as Hn.
  { eexists; split; [done|]. eapply inv_item_done; eauto.
    intros Hnn zu Hzu. destruct (inv_vis Hinv _ Hn) as [zn Hzn].
    exists zn. split; [done|].
    pose proof (inv_top Hinv Hnn u _ n zn zu eq_refl Hn Hzn Hzu).
    pose proof (Hnn _ _ _ _ Hvu Hin). lia. }
  rewrite Hdn. cbn [result_bind subscript dist_add]. set (w := get_weight e c).
  destruct (dist_ltb (Fin (zd + w)) dn) eqn:Hlt.
  2:{ eexists; split; [done|]. eapply inv_item_done; eauto.
      intros Hnn zu Hzu. destruct dn as [zn|]; simpl in Hlt; [|done].
      exists zn. split; [done|]. apply Z.ltb_ge in Hlt. simplify_eq. fold w. lia. }
  eexists; split; [done|].
  assert (Hs : s ∈ visited st).
  { destruct (inv_first Hinv) as [?|[_ ?]]; set_solver. }
  assert (Hns : n ≠ s) by (intros ->; done).
  assert (Hnu : n ≠ u) by (intros ->; done).
  assert (Hlow : ∀ zn, dn = Fin zn → zd + w < zn).
  { intros zn ->. simpl in Hlt. lia. }
  destruct Hinv.
  assert (Hvn : is_Some (vs !! n)) by (apply inv_dom_d0; eauto).
  split; simpl.
  - intros v. rewrite lookup_insert. case_decide; subst; [split; eauto|done].
  - intros v. rewrite lookup_insert. case_decide; subst; [split; eauto|done].
  - by rewrite lookup_insert_ne.
  - by rewrite lookup_insert_ne.
  - by left.
  - intros d0 u0 [[= -> ->]|Hq]%elem_of_cons.
    + exists (zd + w), (zd + w). rewrite lookup_insert_eq. done.
    + destruct (inv_pq0 _ _ Hq) as (z & z' & -> & Hd0 & Hle).
      destruct (decide (u0 = n)) as [->|Hne].
      * exists z, (zd + w). rewrite lookup_insert_eq. split_and!; [done..|].
        rewrite Hdn in Hd0. specialize (Hlow z' ltac:(congruence)). lia.
      * exists z, z'. by rewrite lookup_insert_ne.
  - intros u0 z Hu0. rewrite lookup_insert. case_decide; subst.
    + intros [= <-]. left.
    + intros Hd0. right. auto.
  - intros u0 Hu0. rewrite lookup_insert_ne by (intros ->; done). auto.
  - intros n0 u0. rewrite lookup_insert. case_decide; subst.
    + intros [= <-]. split; [done|]. exists vu, e, zd.
      rewrite lookup_insert_ne by done. rewrite lookup_insert_eq.
      split_and!; try done. by apply elem_dict_get.
    + intros Hp. destruct (inv_pred0 _ _ Hp) as (Hu0 & vu0 & e0 & zu0 & ? & ? & ? & ?).
      split; [done|]. exists vu0, e0, zu0.
      rewrite lookup_insert_ne by (intros ->; done).
      by rewrite lookup_insert_ne.
  - intros n0. rewrite lookup_insert. case_decide; subst; [done|].
    intros Hp. rewrite lookup_insert_ne by done. auto.
  - intros n0 Hn0. destruct (inv_chain0 _ Hn0) as (l & Hc & Hndl & Hl).
    exists l. split_and!; [|done..]. eapply chain_agree; [done|].
    intros x Hx. rewrite lookup_insert_ne; [done|]. intros ->. by apply Hn, Hl.
  - intros n0 z. rewrite lookup_insert. case_decide; subst; [|by eauto].
    intros _. eapply reach_step; [by eapply inv_reach0|done|by apply elem_dict_get].
  - intros Hnn u0 zu d0 v Hu0. rewrite lookup_insert_ne by (intros ->; done).
    intros Hd0 [[= -> ->]|Hq]%elem_of_cons.
    + simpl. pose proof (inv_top0 Hnn u _ u0 zu zd eq_refl Hu0 Hd0 Hdu).
      pose proof (Hnn _ _ _ _ Hvu Hin). fold w in H0. lia.
    + eapply inv_mono0; eauto.
  - intros Hnn u0 todo0 v zv zu [= <- <-] Hv.
    rewrite !lookup_insert_ne by (intros ->; done). by eapply inv_top0.
  - intros Hnn u0 vu0 n0 e0 zu Hu0 Hvu0 Hin0 Hpend.
    rewrite lookup_insert_ne by (intros ->; done). intros Hd0.
    destruct (decide (u0 = u ∧ n0 = n)) as [[-> ->]|Hne].
    + simplify_eq. assert (dict_get (edges vu) n = Some e0) as He0 by by apply elem_dict_get.
      assert (dict_get (edges vu) n = Some e) as He by by apply elem_dict_get.
      assert (e0 = e) as -> by congruence.
      exists (zd + w). by rewrite lookup_insert_eq.
    + destruct (inv_relaxed0 Hnn u0 vu0 n0 e0 zu) as (zn & Hzn & Hle); try done.
      { intros todo0 [= <- <-] [?|?]%elem_of_cons.
        - simplify_eq. naive_solver.
        - by eapply Hpend. }
      destruct (decide (n0 = n)) as [->|Hne'].
      * exists (zd + w). rewrite lookup_insert_eq. split; [done|].
        rewrite Hdn in Hzn. specialize (Hlow zn ltac:(congruence)). lia.
      * exists zn. by rewrite lookup_insert_ne.
Qed.

Lemma inv_for_done st u : inv (Some (u, [])) st → inv None st.
Proof.
  intros []. split; try done.
  intros Hnn u0 vu0 n e zu ? ? ? _ ?. eapply inv_relaxed0; eauto.
  intros todo [= <- <-]. apply not_elem_of_nil.
Qed.

Lemma for_each_relax u vu zd : ∀ todo st,
  inv (Some (u, todo)) st → u ∈ visited st → vs !! u = Some vu →
  (∀ x, x ∈ todo → x ∈ edges vu) → distances st !! u = Some (Fin zd) →
  ∃ st', for_each (relax c (Fin zd) u) st todo = Ok st' ∧
    inv None st' ∧ visited st' = visited st ∧ agree_on (visited st) st st' ∧
    (length (pq st') ≤ length (pq st) + length todo)%nat.
Proof.
  induction todo as [|[n e] todo IH]; intros st Hinv Hu Hvu Hsub Hdu; cbn [for_each].
  - exists st. split_and!; [done|by eapply inv_for_done|done..|lia].
  - destruct (relax_step st u vu zd n e todo) as (st1 & Hr & Hinv1); try done.
    { apply Hsub. left. }
    destruct (relax_pure _ _ _ _ _ _ Hr) as (Hv1 & Hag1 & Hlen1).
    rewrite Hr. cbn [result_bind].
    destruct (IH st1) as (st' & Hf & Hinv' & Hv' & Hag' & Hlen'); try done.
    { by rewrite Hv1. }
    { intros x Hx. apply Hsub. by right. }
    { destruct (Hag1 u Hu) as [-> _]. done. }
    exists st'. split_and!; try done.
    + congruence.
    + eapply agree_on_trans; [|done|done]. by rewrite Hv1.
    + simpl. lia.
Qed.

Lemma visit_vertex_inv g st d u q' :
  vertices g = vs → inv None st → heappop (pq st) = Some ((d, u), q') →
  ∃ st', visit_vertex c d u (with_pq q' st) g = (Ok st', g) ∧
    inv None st' ∧ (measure vs st' < measure vs st)%nat ∧
    visited st ⊆ visited st' ∧ visited st' ⊆ {[u]} ∪ visited st ∧
    agree_on (visited st') st st' ∧ u ∈ visited st'.
Proof.
  intros Hg Hinv Hpop. unfold visit_vertex; simpl.
  destruct (heappop_Some _ _ _ Hpop) as [Hperm _].
  assert (Hlen : length (pq st) = S (length q')) by by rewrite Hperm.
  case_decide as Hu.
  - exists (with_pq q' st). split_and!; try done.
    + by eapply pop_skip.
    + unfold measure. simpl. lia.
    + set_solver.
  - destruct (pop_visit _ _ _ _ Hinv Hpop Hu) as (zd & vu & -> & Hvu & Hdu & Hinv1).
    destruct (for_each_relax u vu zd (edges vu) _ Hinv1)
      as (st' & Hf & Hinv' & Hv' & Hag' & Hlen'); simpl; try done.
    { set_solver. }
    exists st'. unfold bind, gets, liftR. rewrite Hg, Hvu. simpl.
    unfold with_visited, with_pq in *. simpl in *. rewrite Hf.
    split_and!; try done.
    + unfold measure. rewrite Hv', Hlen.
      pose proof (open_degree_visit vs u vu (visited st) Hvu Hu). lia.
    + rewrite Hv'. set_solver.
    + rewrite Hv'. set_solver.
    + rewrite Hv'. intros v Hv. apply (Hag' v Hv).
    + rewrite Hv'. set_solver.
Qed.

Lemma dijkstra_while_inv g e : vertices g = vs → ∀ fuel st,
  inv None st → (measure vs st < fuel)%nat →
  ∃ st' last, dijkstra_while fuel e c st g = (Ok st', g) ∧ inv None last ∧
    distances st' = distances last ∧ predecessors st' = predecessors last ∧
    (pq last = [] ∨ ∃ d q', heappop (pq last) = Some ((d, e), q')).
Proof.
  intros Hg. induction fuel as [|fuel IH]; intros st Hinv Hm; [lia|]. simpl.
  destruct (heappop (pq st)) as [[[d u] q']|] eqn:Hpop.
  - case_decide as He.
    + subst u. exists (with_pq q' st), st. split_and!; eauto.
    + destruct (visit_vertex_inv g st d u q') as (st1 & Hv & Hinv1 & Hm1 & _); try done.
      destruct (IH st1 Hinv1) as (st' & last & Hw & ?); [lia|].
      exists st', last. erewrite bind_ok by done. done.
  - exists st, st. split_and!; try done. left. by apply heappop_None.
Qed.

Lemma dijkstra_while_full_inv g : vertices g = vs → ∀ fuel st,
  inv None st → (measure vs st < fuel)%nat →
  ∃ st', dijkstra_while_full fuel c st g = (Ok st', g) ∧ inv None st' ∧
    pq st' = [] ∧ visited st ⊆ visited st' ∧ agree_on (visited st) st st'.
Proof.
  intros Hg. induction fuel as [|fuel IH]; intros st Hinv Hm; [lia|]. simpl.
  destruct (heappop (pq st)) as [[[d u] q']|] eqn:Hpop.
  - destruct (visit_vertex_inv g st d u q')
      as (st1 & Hv & Hinv1 & Hm1 & Hs1 & _ & Hag1 & _); try done.
    destruct (IH st1 Hinv1) as (st' & Hw & ? & ? & Hs' & Hag'); [lia|].
    exists st'. erewrite bind_ok by done. split_and!; try done.
    + set_solver.
    + eapply agree_on_trans; [|exact (λ v Hv, Hag1 v (Hs1 v Hv))|done]. done.
  - exists st. split_and!; try done. by apply heappop_None.
Qed.

(** *** Walking the predecessor links *)

Lemma walk_back_chain preds n l : chain preds n l → ∀ fuel acc,
  (length l ≤ fuel)%nat → walk_back fuel preds (Some n) acc = Ok (acc ++ l)%list.
Proof.
  induction 1 as [n Hn|n u l Hn Hc IH]; intros fuel acc Hlen; simpl in Hlen.
  - destruct fuel as [|fuel]; [lia|]. simpl. rewrite Hn. simpl.
    by destruct fuel.
  - destruct fuel as [|fuel]; [lia|]. simpl. rewrite Hn. simpl.
    rewrite IH by lia. by rewrite <- app_assoc.
Qed.

Lemma chain_any st n :
  inv None st → n ∈ dom vs →
  ∃ l, chain (predecessors st) n l ∧ NoDup l ∧
    (∀ x, x ∈ l → x = n ∨ x ∈ visited st).
Proof.
  intros Hinv Hn. destruct (decide (n ∈ visited st)) as [Hv|Hv].
  { destruct (inv_chain Hinv _ Hv) as (l & ? & ? & ?). exists l. auto. }
  assert (is_Some (predecessors st !! n)) as [[u|] Hp].
  { apply (inv_dom_p Hinv). by apply elem_of_dom. }
  - destruct (inv_pred Hinv _ _ Hp) as [Hu _].
    destruct (inv_chain Hinv _ Hu) as (l & Hc & Hnd & Hl).
    exists (n :: l). split_and!.
    + by apply chain_step with u.
    + apply NoDup_cons. split; [|done]. intros ?%Hl. done.
    + intros x [->|?%Hl]%elem_of_cons; auto.
  - exists [n]. split_and!; [by apply chain_end|apply NoDup_singleton|].
    intros x ->%list_elem_of_singleton. auto.
Qed.

Lemma visited_dom st v : inv None st → v ∈ visited st → v ∈ dom vs.
Proof.
  intros Hinv Hv. destruct (inv_vis Hinv _ Hv) as [z Hz].
  apply elem_of_dom, (inv_dom_d Hinv). eauto.
Qed.

Lemma chain_length st n l :
  inv None st → n ∈ dom vs → NoDup l →
  (∀ x, x ∈ l → x = n ∨ x ∈ visited st) → (length l ≤ size vs)%nat.
Proof.
  intros Hinv Hn Hnd Hl.
  rewrite <- size_dom. unfold size, set_size. simpl.
  apply submseteq_length, NoDup_submseteq; [done|].
  intros x Hx. apply elem_of_elements.
  destruct (Hl x Hx) as [->|?]; [done|]. by eapply visited_dom.
Qed.

(** *** Costs along a path *)

Lemma path_cost_snoc p u n :
  path_cost vs c (p ++ [u; n]) =
    k ← path_cost vs c (p ++ [u]);
    vu ← vs !! u;
    e ← dict_get (edges vu) n;
    Some (k + get_weight e c).
Proof.
  induction p as [|x p IH].
  - simpl. destruct (vs !! u) as [vu|]; simpl; [|done].
    destruct (dict_get (edges vu) n); simpl; [|done]. f_equal. lia.
  - destruct p as [|y p].
    + simpl in *. destruct (vs !! x) as [vx|]; simpl; [|done].
      destruct (dict_get (edges vx) u); simpl; [|done].
      destruct (vs !! u) as [vu|]; simpl; [|done].
      destruct (dict_get (edges vu) n); simpl; [|done]. f_equal. lia.
    + change (path_cost vs c ((x :: y :: p) ++ [u; n])) with
        (vx ← vs !! x; e ← dict_get (edges vx) y;
         total ← path_cost vs c ((y :: p) ++ [u; n]);
         Some (get_weight e c + total)).
      change (path_cost vs c ((x :: y :: p) ++ [u])) with
        (vx ← vs !! x; e ← dict_get (edges vx) y;
         total ← path_cost vs c ((y :: p) ++ [u]);
         Some (get_weight e c + total)).
      rewrite IH.
      destruct (path_cost vs c ((y :: p) ++ [u])) as [k'|];
        destruct (vs !! x) as [vx|]; simpl; try done;
        destruct (dict_get (edges vx) y); simpl; try done;
        destruct (vs !! u) as [vu|]; simpl; try done;
        destruct (dict_get (edges vu) n); simpl; try done.
      f_equal. lia.
Qed.

Lemma path_walk p : ∀ a b k,
  head p = Some a → last p = Some b → path_cost vs c p = Some k →
  walk vs c a b k.
Proof.
  induction p as [|b' p IH] using rev_ind; intros a b k Hh Hl Hc; [done|].
  rewrite last_snoc in Hl. injection Hl as ->.
  destruct p as [|u p _] using rev_ind.
  - simpl in *. simplify_eq. constructor.
  - rewrite <- app_assoc in Hc. simpl in Hc. rewrite path_cost_snoc in Hc.
    destruct (path_cost vs c (p ++ [u])) as [k'|] eqn:Hk'; simpl in Hc; [|done].
    destruct (vs !! u) as [vu|] eqn:Hvu; simpl in Hc; [|done].
    destruct (dict_get (edges vu) b) as [e|] eqn:He; simpl in Hc; [|done].
    injection Hc as <-. eapply walk_step; [|done..].
    apply IH; [|by rewrite last_snoc|done].
    rewrite <- app_assoc in Hh. destruct p; simpl in *; done.
Qed.

Lemma chain_cost st : inv None st → ∀ n l z,
  chain (predecessors st) n l → distances st !! n = Some (Fin z) →
  is_path vs c s n (rev l) z.
Proof.
  intros Hinv n l z Hc. revert z. unfold is_path.
  induction Hc as [n Hn|n u l Hn Hc IH]; intros z Hz.
  - destruct (inv_nopred Hinv _ Hn) as [->|?]; [|congruence].
    rewrite (inv_start_d Hinv) in Hz. by simplify_eq.
  - destruct (inv_pred Hinv _ _ Hn) as (_ & vu & e & zu & Hvu & He & Hdu & Hdn).
    destruct (IH _ Hdu) as (Hh & Hl & Hcost).
    destruct (chain_head _ _ _ Hc) as [l' ->].
    assert (z = zu + get_weight e c) as -> by congruence.
    simpl in *. split_and!.
    + destruct (rev l'); done.
    + by rewrite last_snoc.
    + rewrite <- app_assoc. simpl. rewrite path_cost_snoc, Hcost. simpl.
      rewrite Hvu. simpl. by rewrite He.
Qed.

(** *** The relaxed edges bound every walk from the source *)

Lemma walk_bound st v k :
  nonneg_costs vs c → inv None st → walk vs c s v k →
  (∃ w zw, (w ∉ visited st) ∧ distances st !! w = Some (Fin zw) ∧ zw ≤ k) ∨
  (v ∈ visited st ∧ ∃ zv, distances st !! v = Some (Fin zv) ∧ zv ≤ k).
Proof.
  intros Hnn Hinv. induction 1 as [|u vu n e k Hw IH Hvu He].
  - pose proof (inv_start_d Hinv).
    destruct (decide (s ∈ visited st)); [right|left]; eauto 7 with lia.
  - pose proof (Hnn _ _ _ _ Hvu (dict_get_elem _ _ _ He)) as Hpos.
    destruct IH as [(w & zw & ? & ? & ?)|(Hu & zu & Hdu & ?)].
    { left. exists w, zw. split_and!; [done..|lia]. }
    destruct (inv_relaxed Hinv Hnn u vu n e zu) as (zn & Hdn & ?); try done.
    { by apply dict_get_elem. }
    destruct (decide (n ∈ visited st)); [right|left].
    + split; [done|]. exists zn. split; [done|lia].
    + exists n, zn. split_and!; [done..|lia].
Qed.

(** *** The two loops side by side *)

Lemma lockstep g e : vertices g = vs → e ∈ dom vs → ∀ fuel st,
  inv None st → e ∉ visited st → (measure vs st < fuel)%nat →
  ∃ st1 st2 l,
    dijkstra_while fuel e c st g = (Ok st1, g) ∧
    dijkstra_while_full fuel c st g = (Ok st2, g) ∧
    distances st1 !! e = distances st2 !! e ∧
    chain (predecessors st1) e l ∧ chain (predecessors st2) e l ∧
    (length l ≤ size vs)%nat.
Proof.
  intros Hg He. induction fuel as [|fuel IH]; intros st Hinv Hev Hm; [lia|]. simpl.
  destruct (heappop (pq st)) as [[[d u] q']|] eqn:Hpop.
  - destruct (visit_vertex_inv g st d u q')
      as (sta & Hv & Hinva & Hma & Hsa & Hsa' & Haga & Hua); try done.
    erewrite (bind_ok (visit_vertex _ _ _ _)) by done.
    case_decide as Hue.
    + subst u.
      destruct (dijkstra_while_full_inv g Hg fuel sta Hinva)
        as (st2 & Hw2 & Hinv2 & _ & _ & Hag2); [lia|].
      destruct (inv_chain Hinva _ Hua) as (l & Hc & Hnd & Hl).
      exists (with_pq q' st), st2, l. split_and!; try done.
      * simpl. destruct (Hag2 e Hua) as [-> _]. by destruct (Haga e Hua) as [-> _].
      * simpl. eapply chain_agree; [done|]. intros x Hx.
        by destruct (Haga x (Hl x Hx)) as [_ ->].
      * eapply chain_agree; [done|]. intros x Hx.
        by destruct (Hag2 x (Hl x Hx)) as [_ ->].
      * eapply (chain_length sta e); eauto.
    + erewrite bind_ok by done. apply IH; [done| |lia].
      intros Hin. apply Hsa' in Hin. set_solver.
  - destruct (chain_any st e Hinv He) as (l & Hc & Hnd & Hl).
    exists st, st, l. split_and!; try done. by eapply chain_length.
Qed.
End Invariants.

(** ** What [dijkstra] returns *)

Lemma walk_back_None fuel preds path : walk_back fuel preds None path = Ok path.
Proof. by destruct fuel. Qed.

Lemma measure_init vs a : (measure vs (dijkstra_init vs a) < loop_fuel vs)%nat.
Proof. unfold measure, loop_fuel. simpl. rewrite open_degree_empty. lia. Qed.

Lemma dijkstra_unfold a b c g :
  a ∈ dom (vertices g) → b ∈ dom (vertices g) →
  dijkstra a b c g =
    (st <- dijkstra_while (loop_fuel (vertices g)) b c (dijkstra_init (vertices g) a) ;;
     path <- liftR (walk_back (path_fuel (vertices g)) (predecessors st) (Some b) []) ;;
     total <- liftR (subscript (distances st !! b)) ;;
     ret (total, rev path)) g.
Proof.
  intros Ha Hb. unfold dijkstra. rewrite (bind_ok _ _ g (vertices g) g) by done.
  by rewrite !bool_decide_true by done.
Qed.

Lemma dijkstra_result g a b c :
  wf_graph g → a ∈ dom (vertices g) → b ∈ dom (vertices g) →
  ∃ last l d,
    dijkstra a b c g = (Ok (d, rev l), g) ∧
    loop_inv (vertices g) a c None last ∧
    distances last !! b = Some d ∧
    chain (predecessors last) b l ∧
    (pq last = [] ∨ ∃ d' q', heappop (pq last) = Some ((d', b), q')).
Proof.
  intros Hwf Ha Hb. rewrite dijkstra_unfold by done.
  destruct (dijkstra_while_inv (vertices g) a c Hwf g b eq_refl
              (loop_fuel (vertices g)) (dijkstra_init (vertices g) a))
    as (st & last & Hw & Hinv & Hd & Hp & Hlast).
  { by apply inv_init. }
  { apply measure_init. }
  destruct (chain_any _ _ _ last b Hinv Hb) as (l & Hc & Hnd & Hl).
  assert (is_Some (distances last !! b)) as [d Hdb].
  { apply (inv_dom_d Hinv). by apply elem_of_dom. }
  exists last, l, d. split_and!; try done.
  erewrite bind_ok by done. rewrite Hp, Hd.
  erewrite bind_ok; last first.
  { unfold liftR. erewrite walk_back_chain; [done..|].
    unfold path_fuel. eapply Nat.le_trans; [by eapply chain_length|lia]. }
  rewrite Hdb. done.
Qed.



(** ** Checkers *)

Lemma wf_check_sound vs : wf_check vs = true → wf_vertices vs.
Proof.
  intros H%bool_decide_eq_true u vu Hu. destruct (H u vu Hu) as [Hnd Hall].
  split; [done|]. intros n e Hin. rewrite Forall_forall in Hall. exact (Hall _ Hin).
Qed.

Lemma nonneg_check_sound vs c : nonneg_check vs c = true → nonneg_costs vs c.
Proof.
  intros H%bool_decide_eq_true u vu n e Hu Hin. specialize (H u vu Hu). simpl in H.
  rewrite Forall_forall in H. exact (H _ Hin).
Qed.

Lemma closed_check_sound vs X a b :
  closed_check vs X = true → a ∈ X → reachable vs a b → b ∈ X.
Proof.
  intros H%bool_decide_eq_true Ha. induction 1 as [|u vu n e _ IH Hu He]; [done|].
  specialize (H u vu Hu IH). rewrite Forall_forall in H.
  exact (H _ (dict_get_elem _ _ _ He)).
Qed.

Lemma in_dom_check (vs : gmap Z Vertex) a : bool_decide (a ∈ dom vs) = true → a ∈ dom vs.
Proof. apply bool_decide_eq_true. Qed.

(** * The shortest-path engine *)

(** The specification's scenario: three locations in a row, five minutes
    apart under normal traffic. *)
Example scenario_shortest_path :
  (dijkstra 0 2 "normal" scenario_graph).1 = Ok (Fin 10, [0; 1; 2]).
Proof. vm_compute. reflexivity. Qed.

Example scenario_unknown_vertex :
  (dijkstra 0 7 "normal" scenario_graph).1
    = Raise (ValueError "Both start and end vertices must exist in the graph").
Proof. vm_compute. reflexivity. Qed.

(** An unrecognised condition falls back on the normal cost. *)
Lemma get_weight_fallback e c :
  c ≠ "light" → c ≠ "normal" → c ≠ "rush_hour" → get_weight e c = normal (weights e).
Proof.
  intros H1 H2 H3. unfold get_weight, weights_get.
  by rewrite !decide_False by done.
Qed.

(** C3. With source equal to target, for any graph holding the vertex and
    any condition, [dijkstra] returns cost 0 and the one-element path. *)
Theorem dijkstra_same_vertex g a c :
  a ∈ dom (vertices g) → dijkstra a a c g = (Ok (Fin 0, [a]), g).
Proof.
  intros Ha. rewrite dijkstra_unfold by done.
  unfold loop_fuel, path_fuel. cbn [Nat.add dijkstra_while dijkstra_init pq].
  rewrite heappop_singleton. rewrite decide_True by done.
  unfold bind, ret, liftR. cbn [with_pq predecessors distances walk_back].
  apply elem_of_dom in Ha as [va Ha]. unfold dijkstra_init. simpl.
  rewrite lookup_fmap, Ha. simpl. rewrite walk_back_None. by rewrite lookup_insert_eq.
Qed.

Lemma dijkstra_same_vertex_witness :
  dijkstra 1 1 "rush_hour" scenario_graph = (Ok (Fin 0, [1]), scenario_graph).
Proof. apply dijkstra_same_vertex. apply in_dom_check. vm_compute. reflexivity. Defined.

(** C1 (as the code has it). When [b] cannot be reached from [a], both in
    a well-formed graph, [dijkstra] raises nothing and returns infinite cost
    with the path [[b]]: the walk over the predecessor links always starts
    by appending the target.  The answer differs from the source-is-target
    answer [(0, [a])] by its cost, not by the shape of its path. *)
Theorem dijkstra_unreachable g a b c :
  wf_graph g → a ∈ dom (vertices g) → b ∈ dom (vertices g) →
  ¬ reachable (vertices g) a b →
  dijkstra a b c g = (Ok (Inf, [b]), g).
Proof.
  intros Hwf Ha Hb Hnr.
  destruct (dijkstra_result g a b c Hwf Ha Hb) as (last & l & d & -> & Hinv & Hd & Hc & _).
  assert (d = Inf) as ->.
  { destruct d as [z|]; [|done]. destruct Hnr. by eapply inv_reach. }
  inversion Hc as [n Hn|n u l' Hn Hc']; subst; [done|].
  destruct (inv_pred Hinv _ _ Hn) as (_ & ? & ? & ? & _ & _ & _ & ?).
  congruence.
Qed.

Lemma island_unreachable : ¬ reachable (vertices island_graph) 0 3.
Proof.
  intros H. apply (closed_check_sound _ {[0; 1; 2]}) in H; [set_solver| |set_solver].
  vm_compute. reflexivity.
Qed.

Lemma dijkstra_unreachable_witness :
  dijkstra 0 3 "normal" island_graph = (Ok (Inf, [3]), island_graph).
Proof.
  apply dijkstra_unreachable.
  - apply wf_check_sound. vm_compute. reflexivity.
  - apply in_dom_check. vm_compute. reflexivity.
  - apply in_dom_check. vm_compute. reflexivity.
  - apply island_unreachable.
Defined.

(** C1, as stated, fails: for the unreachable location 3 the returned path
    is [[3]], not the empty path. *)
Lemma dijkstra_unreachable_path_not_empty :
  ¬ reachable (vertices island_graph) 0 3 ∧
  (dijkstra 0 3 "normal" island_graph).1 = Ok (Inf, [3]) ∧
  (dijkstra 0 3 "normal" island_graph).1 ≠ Ok (Inf, []).
Proof.
  split; [apply island_unreachable|]. split; [by vm_compute|].
  vm_compute. discriminate.
Qed.

(** C2. With non-negative costs under condition [c], the cost returned for
    existing vertices [a] and [b] is at most the cost of any path from [a]
    to [b]; a finite returned cost is the cost of the returned path. *)
Theorem dijkstra_optimal g a b c p k :
  wf_graph g → nonneg_costs (vertices g) c →
  a ∈ dom (vertices g) → b ∈ dom (vertices g) →
  is_path (vertices g) c a b p k →
  ∃ d path, dijkstra a b c g = (Ok (d, path), g) ∧ dist_le d (Fin k) ∧
    ∀ z, d = Fin z → is_path (vertices g) c a b path z.
Proof.
  intros Hwf Hnn Ha Hb (Hh & Hl & Hcost).
  destruct (dijkstra_result g a b c Hwf Ha Hb)
    as (last & l & d & -> & Hinv & Hd & Hc & Hlast).
  exists d, (rev l). split_and!; [done| |].
  - pose proof (path_walk _ _ _ _ _ _ Hh Hl Hcost) as Hw.
    destruct (walk_bound _ _ _ last b k Hnn Hinv Hw)
      as [(w & zw & Hwv & Hdw & Hle)|(_ & zv & Hdv & Hle)].
    + pose proof (inv_open Hinv _ _ Hwv Hdw) as Hin.
      destruct Hlast as [Hq|(d' & q' & Hpop)].
      { rewrite Hq in Hin. by apply elem_of_nil in Hin. }
      destruct (heappop_Some _ _ _ Hpop) as [Hperm Hmin].
      assert ((d', b) ∈ pq last) as Hb' by (rewrite Hperm; left).
      destruct (inv_pq Hinv _ _ Hb') as (z & z' & -> & Hdb & ?).
      assert (z ≤ zw).
      { rewrite Hperm in Hin. apply elem_of_cons in Hin as [?|Hin]; [simplify_eq; lia|].
        apply Hmin, entry_le_dist in Hin. done. }
      rewrite Hd in Hdb. simplify_eq. simpl. lia.
    + rewrite Hd in Hdv. simplify_eq. simpl. lia.
  - intros z ->. by eapply chain_cost.
Qed.

Lemma dijkstra_optimal_witness :
  ∃ d path, dijkstra 0 2 "normal" detour_graph = (Ok (d, path), detour_graph) ∧
    dist_le d (Fin 12) ∧
    ∀ z, d = Fin z → is_path (vertices detour_graph) "normal" 0 2 path z.
Proof.
  apply (dijkstra_optimal detour_graph 0 2 "normal" [0; 2] 12).
  - apply wf_check_sound. vm_compute. reflexivity.
  - apply nonneg_check_sound. vm_compute. reflexivity.
  - apply in_dom_check. vm_compute. reflexivity.
  - apply in_dom_check. vm_compute. reflexivity.
  - repeat split; vm_compute; reflexivity.
Defined.

(** C9. Leaving the loop as soon as the target is popped changes nothing:
    on every well-formed graph and every pair of existing vertices the
    variant that runs until the frontier is empty returns the same cost and
    the same path (and, like [dijkstra], it does return). *)
Theorem early_exit_same_result g a b c :
  wf_graph g → a ∈ dom (vertices g) → b ∈ dom (vertices g) →
  dijkstra_full a b c g = dijkstra a b c g ∧
  ∃ d path, dijkstra a b c g = (Ok (d, path), g).
Proof.
  intros Hwf Ha Hb.
  destruct (lockstep (vertices g) a c Hwf g b eq_refl Hb
              (loop_fuel (vertices g)) (dijkstra_init (vertices g) a))
    as (st1 & st2 & l & Hw1 & Hw2 & Hd & Hc1 & Hc2 & Hlen).
  { by apply inv_init. }
  { set_solver. }
  { apply measure_init. }
  assert (Hfuel : (length l ≤ path_fuel (vertices g))%nat) by (unfold path_fuel; lia).
  assert (dijkstra_full a b c g =
          (Ok (default Inf (distances st2 !! b), rev l), g) ∧
          dijkstra a b c g = (Ok (default Inf (distances st1 !! b), rev l), g)) as [E2 E1].
  { rewrite dijkstra_unfold by done. unfold dijkstra_full.
    rewrite (bind_ok _ _ g (vertices g) g) by done.
    rewrite !bool_decide_true by done. cbn [negb orb].
    rewrite (bind_ok _ _ _ _ _ Hw1), (bind_ok _ _ _ _ _ Hw2).
    unfold bind, liftR, ret.
    rewrite (walk_back_chain _ _ _ Hc1), (walk_back_chain _ _ _ Hc2) by done.
    rewrite <- Hd.
    destruct (dijkstra_result g a b c Hwf Ha Hb) as (last & l' & d & Hr & _).
    rewrite dijkstra_unfold in Hr by done.
    rewrite (bind_ok _ _ _ _ _ Hw1) in Hr. unfold bind, liftR, ret in Hr.
    rewrite (walk_back_chain _ _ _ Hc1) in Hr by done.
    destruct (distances st1 !! b); simpl in *; [done|congruence]. }
  rewrite E1, E2, Hd. eauto.
Qed.

Lemma early_exit_same_result_witness :
  dijkstra_full 0 2 "light" detour_graph = dijkstra 0 2 "light" detour_graph ∧
  ∃ d path, dijkstra 0 2 "light" detour_graph = (Ok (d, path), detour_graph).
Proof.
  apply early_exit_same_result.
  - apply wf_check_sound. vm_compute. reflexivity.
  - apply in_dom_check. vm_compute. reflexivity.
  - apply in_dom_check. vm_compute. reflexivity.
Defined.

(** * Graph construction *)

Lemma wf_graph_init : wf_graph Graph_init.
Proof. intros u vu Hu. simpl in Hu. by rewrite lookup_empty in Hu. Qed.

Lemma wf_add_vertex g id x y : wf_graph g → wf_graph (exec (add_vertex id x y) g).
Proof.
  intros Hwf u vu. unfold exec, add_vertex; simpl.
  rewrite lookup_insert. case_decide; subst.
  - intros [= <-]. simpl. split; [apply NoDup_nil_2|]. by intros n e ?%elem_of_nil.
  - intros Hu. destruct (Hwf _ _ Hu) as [Hnd Hdom]. split; [done|].
    intros n e Hin. rewrite dom_insert. apply elem_of_union_r. eauto.
Qed.

Lemma wf_set_edge vs id k e :
  wf_vertices vs → k ∈ dom vs →
  wf_vertices (alter (set_edges (λ es, dict_set es k e)) id vs).
Proof.
  intros Hwf Hk u vu. rewrite dom_alter_L. rewrite lookup_alter.
  case_decide; subst; [|apply Hwf].
  destruct (vs !! u) as [v0|] eqn:Hu; simpl; [|done]. intros [= <-]. simpl.
  destruct (Hwf _ _ Hu) as [Hnd Hdom]. split; [by apply dict_set_NoDup|].
  intros n e' [[= -> ->]|Hin]%dict_set_elem; eauto.
Qed.

Lemma add_edge_ok g id1 id2 l n r :
  id1 ∈ dom (vertices g) → id2 ∈ dom (vertices g) →
  add_edge id1 id2 l n r g =
    (Ok (mkEdge id1 id2 (mkWeights l n r)),
     mkGraph (alter (set_edges (λ es, dict_set es id1 (mkEdge id1 id2 (mkWeights l n r)))) id2
               (alter (set_edges (λ es, dict_set es id2 (mkEdge id1 id2 (mkWeights l n r)))) id1
                  (vertices g)))).
Proof.
  intros H1 H2. unfold add_edge. rewrite (bind_ok _ _ g (vertices g) g) by done.
  by rewrite !bool_decide_true by done.
Qed.

Lemma wf_add_edge g id1 id2 l n r :
  wf_graph g → id1 ∈ dom (vertices g) → id2 ∈ dom (vertices g) →
  wf_graph (exec (add_edge id1 id2 l n r) g).
Proof.
  intros Hwf H1 H2. unfold exec. rewrite add_edge_ok by done. unfold wf_graph. simpl.
  apply wf_set_edge; [apply wf_set_edge; done|]. by rewrite dom_alter_L.
Qed.

(** C4 (as the code has it). [add_vertex] never fails: it stores a fresh
    vertex with no adjacency under [id] and returns it, whether or not [id]
    was present; every other vertex is kept.  An absent [id] enlarges the
    graph by one vertex; a present one has its vertex replaced. *)
Theorem add_vertex_inserts_or_replaces g id x y :
  ∃ g', add_vertex id x y g = (Ok (mkVertex id x y []), g') ∧
    vertices g' !! id = Some (mkVertex id x y []) ∧
    (∀ k, k ≠ id → vertices g' !! k = vertices g !! k) ∧
    (id ∉ dom (vertices g) → size (vertices g') = S (size (vertices g))) ∧
    (id ∈ dom (vertices g) → dom (vertices g') = dom (vertices g)).
Proof.
  eexists. split; [reflexivity|]. simpl. split_and!.
  - apply lookup_insert_eq.
  - intros k Hk. by rewrite lookup_insert_ne.
  - intros Hid. apply map_size_insert_None. by apply not_elem_of_dom.
  - intros Hid. rewrite dom_insert_L. set_solver.
Qed.

Lemma add_vertex_inserts_or_replaces_witness :
  ∃ g', add_vertex 1 7 7 scenario_graph = (Ok (mkVertex 1 7 7 []), g') ∧
    vertices g' !! 1 = Some (mkVertex 1 7 7 []) ∧
    (∀ k, k ≠ 1 → vertices g' !! k = vertices scenario_graph !! k) ∧
    (1 ∉ dom (vertices scenario_graph) →
       size (vertices g') = S (size (vertices scenario_graph))) ∧
    (1 ∈ dom (vertices scenario_graph) →
       dom (vertices g') = dom (vertices scenario_graph)).
Proof. apply add_vertex_inserts_or_replaces. Defined.

(** C4, as stated, fails: adding the present id 1 again raises nothing and
    changes the graph (location 1 loses its roads and moves). *)
Lemma add_vertex_duplicate_overwrites :
  1 ∈ dom (vertices scenario_graph) ∧
  (add_vertex 1 7 7 scenario_graph).1 = Ok (mkVertex 1 7 7 []) ∧
  (add_vertex 1 7 7 scenario_graph).2 ≠ scenario_graph.
Proof.
  split_and!.
  - apply in_dom_check. vm_compute. reflexivity.
  - reflexivity.
  - intros H. apply (f_equal (λ g, edges <$> vertices g !! 1)) in H.
    vm_compute in H. discriminate.
Qed.

(** C5 (as the code has it). [add_edge] does not look at the sign of the
    costs: whenever both vertices exist it succeeds and installs, at both
    endpoints, an edge carrying the three costs as given.  A well-formed
    graph stays well-formed, and [dijkstra] on it returns a result for all
    existing vertices, whatever the signs. *)
Theorem add_edge_accepts_any_cost g id1 id2 l n r :
  id1 ∈ dom (vertices g) → id2 ∈ dom (vertices g) →
  ∃ g', add_edge id1 id2 l n r g = (Ok (mkEdge id1 id2 (mkWeights l n r)), g') ∧
    (∃ v1, vertices g' !! id1 = Some v1 ∧
       dict_get (edges v1) id2 = Some (mkEdge id1 id2 (mkWeights l n r))) ∧
    (∃ v2, vertices g' !! id2 = Some v2 ∧
       dict_get (edges v2) id1 = Some (mkEdge id1 id2 (mkWeights l n r))) ∧
    get_weight (mkEdge id1 id2 (mkWeights l n r)) "light" = l ∧
    get_weight (mkEdge id1 id2 (mkWeights l n r)) "normal" = n ∧
    get_weight (mkEdge id1 id2 (mkWeights l n r)) "rush_hour" = r ∧
    (wf_graph g → wf_graph g' ∧
       ∀ a b c, a ∈ dom (vertices g') → b ∈ dom (vertices g') →
         ∃ d path, dijkstra a b c g' = (Ok (d, path), g')).
Proof.
  intros H1 H2. eexists. split; [by apply add_edge_ok|]. simpl.
  apply elem_of_dom in H1 as H1'. destruct H1' as [v1 Hv1].
  apply elem_of_dom in H2 as H2'. destruct H2' as [v2 Hv2].
  split_and!; try done.
  - rewrite lookup_alter. case_decide; subst.
    + rewrite lookup_alter_eq, Hv1. simpl. eexists; split; [done|]. simpl.
      rewrite !dict_get_set. by rewrite decide_True.
    + rewrite lookup_alter_eq, Hv1. simpl. eexists; split; [done|]. simpl.
      rewrite dict_get_set. by rewrite decide_True.
  - rewrite lookup_alter_eq. rewrite lookup_alter. case_decide; subst.
    + rewrite Hv2. simpl. eexists; split; [done|]. simpl.
      rewrite !dict_get_set. by rewrite decide_True.
    + rewrite Hv2. simpl. eexists; split; [done|]. simpl.
      rewrite dict_get_set. by rewrite decide_True.
  - intros Hwf.
    pose proof (wf_add_edge g id1 id2 l n r Hwf H1 H2) as Hwf'.
    unfold exec in Hwf'. rewrite add_edge_ok in Hwf' by done. simpl in Hwf'.
    split; [done|]. intros a b c Ha Hb.
    destruct (dijkstra_result _ a b c Hwf' Ha Hb) as (? & lst & d & Hr & _). eauto.
Qed.

Lemma add_edge_accepts_any_cost_witness :
  ∃ g', add_edge 0 2 (-5) (-1) (-7) scenario_graph
          = (Ok (mkEdge 0 2 (mkWeights (-5) (-1) (-7))), g') ∧
    (∃ v1, vertices g' !! 0 = Some v1 ∧
       dict_get (edges v1) 2 = Some (mkEdge 0 2 (mkWeights (-5) (-1) (-7)))) ∧
    (∃ v2, vertices g' !! 2 = Some v2 ∧
       dict_get (edges v2) 0 = Some (mkEdge 0 2 (mkWeights (-5) (-1) (-7)))) ∧
    get_weight (mkEdge 0 2 (mkWeights (-5) (-1) (-7))) "light" = -5 ∧
    get_weight (mkEdge 0 2 (mkWeights (-5) (-1) (-7))) "normal" = -1 ∧
    get_weight (mkEdge 0 2 (mkWeights (-5) (-1) (-7))) "rush_hour" = -7 ∧
    (wf_graph scenario_graph → wf_graph g' ∧
       ∀ a b c, a ∈ dom (vertices g') → b ∈ dom (vertices g') →
         ∃ d path, dijkstra a b c g' = (Ok (d, path), g')).
Proof.
  apply add_edge_accepts_any_cost; apply in_dom_check; vm_compute; reflexivity.
Defined.

(** C5, as stated, fails: a call whose three costs are negative raises
    nothing and returns the edge. *)
Lemma add_edge_negative_cost_accepted :
  (add_edge 0 2 (-5) (-1) (-7) scenario_graph).1
    = Ok (mkEdge 0 2 (mkWeights (-5) (-1) (-7))).
Proof. by vm_compute. Qed.

(** * The dispatch directory *)

Lemma try_cop_run s t c acc id loc d path :
  dijkstra loc t c (graph s) = (Ok (d, path), graph s) →
  try_cop t c acc (id, loc) s =
    (Ok (if dist_ltb d acc.1.2 then (Some id, d, Some path) else acc), s).
Proof.
  intros H. unfold try_cop, bind, zoom. rewrite H, set_graph_id.
  by destruct (dist_ltb d acc.1.2).
Qed.

Lemma dist_ltb_le_trans a b c : dist_ltb a b = true → dist_le b c → dist_ltb a c = true.
Proof. intros. dist_cases. Qed.

Lemma dist_ltb_trans a b c : dist_ltb a b = true → dist_ltb b c = true → dist_ltb a c = true.
Proof. intros. dist_cases. Qed.

Lemma dist_ltb_false_le a b : dist_ltb a b = false → dist_le b a.
Proof. intros. dist_cases. Qed.

Lemma dist_ltb_le a b : dist_ltb a b = true → dist_le a b.
Proof. intros. dist_cases. Qed.

Lemma dist_le_trans a b c : dist_le a b → dist_le b c → dist_le a c.
Proof. intros. dist_cases. Qed.

Lemma dist_le_refl a : dist_le a a.
Proof. dist_cases. Qed.

(** The [for] loop of [find_nearest_cop]: it ends on the running minimum,
    which is the accumulator it started from or the first item that beats
    everything before it. *)
Lemma nearest_fold s t c cs :
  (∀ id loc, (id, loc) ∈ cs →
     ∃ d path, dijkstra loc t c (graph s) = (Ok (d, path), graph s)) →
  ∀ acc, ∃ r m p,
    for_eachM (try_cop t c) acc cs s = (Ok (r, m, p), s) ∧
    dist_le m acc.1.2 ∧
    (∀ id loc d path, (id, loc) ∈ cs →
       dijkstra loc t c (graph s) = (Ok (d, path), graph s) → dist_le m d) ∧
    ((r, m, p) = acc ∨
     ∃ pre id loc post path,
       cs = (pre ++ (id, loc) :: post)%list ∧ r = Some id ∧ p = Some path ∧
       dijkstra loc t c (graph s) = (Ok (m, path), graph s) ∧
       dist_ltb m acc.1.2 = true ∧
       ∀ id' loc' d' path', (id', loc') ∈ pre →
         dijkstra loc' t c (graph s) = (Ok (d', path'), graph s) →
         dist_ltb m d' = true).
Proof.
  induction cs as [|[id loc] cs IH]; intros Hall acc.
  - destruct acc as [[r m] p]. exists r, m, p. simpl.
    split_and!; [done|apply dist_le_refl| |by left].
    by intros ? ? ? ? ?%elem_of_nil.
  - destruct (Hall id loc) as (d & path & Hd); [left|].
    cbn [for_eachM]. erewrite bind_ok by by apply try_cop_run.
    destruct (IH (λ i l H, Hall i l (list_elem_of_further _ _ _ H))
                (if dist_ltb d acc.1.2 then (Some id, d, Some path) else acc))
      as (r & m & p & Hrun & Hle & Hmin & Hwho).
    exists r, m, p. split; [done|].
    destruct (dist_ltb d acc.1.2) eqn:Hlt; simpl in *.
    + split_and!.
      * eapply dist_le_trans; [done|]. by apply dist_ltb_le.
      * intros i l d0 p0 [[= -> ->]|Hin]%elem_of_cons Hd0; [|by eauto].
        rewrite Hd in Hd0. by simplify_eq.
      * right. destruct Hwho as [[= -> -> ->]|(pre & i & l & post & p0 & -> & -> & -> & Hw & Hlt' & Hpre)].
        -- exists [], id, loc, cs, path. split_and!; try done.
           by intros ? ? ? ? ?%elem_of_nil.
        -- exists ((id, loc) :: pre), i, l, post, p0. split_and!; try done.
           ++ by eapply dist_ltb_trans.
           ++ intros i' l' d' p' [[= -> ->]|Hin]%elem_of_cons Hd'; [|by eauto].
              rewrite Hd in Hd'. by simplify_eq.
    + apply dist_ltb_false_le in Hlt. split_and!.
      * done.
      * intros i l d0 p0 [[= -> ->]|Hin]%elem_of_cons Hd0; [|by eauto].
        rewrite Hd in Hd0. simplify_eq. by eapply dist_le_trans.
      * destruct Hwho as [?|(pre & i & l & post & p0 & -> & -> & -> & Hw & Hlt' & Hpre)];
          [by left|right].
        exists ((id, loc) :: pre), i, l, post, p0. split_and!; try done.
        intros i' l' d' p' [[= -> ->]|Hin]%elem_of_cons Hd'; [|by eauto].
        rewrite Hd in Hd'. simplify_eq. by eapply dist_ltb_le_trans.
Qed.

Lemma dijkstra_path_cost g a b c z path :
  wf_graph g → a ∈ dom (vertices g) → b ∈ dom (vertices g) →
  dijkstra a b c g = (Ok (Fin z, path), g) → is_path (vertices g) c a b path z.
Proof.
  intros Hwf Ha Hb Hr.
  destruct (dijkstra_result g a b c Hwf Ha Hb) as (last & l & d & Hr' & Hinv & Hd & Hc & _).
  rewrite Hr in Hr'. simplify_eq. by eapply chain_cost.
Qed.

(** C7 (as the code has it). For a non-empty directory over a well-formed
    graph, all resources and the target at existing vertices,
    [find_nearest_cop] returns the least of the costs [dijkstra] gives the
    resources.  When that cost is finite, the resource returned is the first
    one in insertion order that attains it, the path is the one [dijkstra]
    returned for it, and summing the edge costs along that path under the
    query condition gives the returned cost.  When no resource reaches the
    target, the cost is infinite and neither a resource nor a path is
    returned. *)
Theorem find_nearest_cop_first_minimum s t c :
  wf_graph (graph s) → t ∈ dom (vertices (graph s)) →
  (∀ id loc, (id, loc) ∈ cops s → loc ∈ dom (vertices (graph s))) →
  cops s ≠ [] →
  ∃ r m p, find_nearest_cop t c s = (Ok (r, Some m, p), s) ∧
    (∀ id loc, (id, loc) ∈ cops s →
       ∃ d path, dijkstra loc t c (graph s) = (Ok (d, path), graph s) ∧ dist_le m d) ∧
    match m with
    | Inf => r = None ∧ p = None
    | Fin z =>
        ∃ pre id loc post path,
          cops s = (pre ++ (id, loc) :: post)%list ∧ r = Some id ∧ p = Some path ∧
          dijkstra loc t c (graph s) = (Ok (Fin z, path), graph s) ∧
          (∀ id' loc', (id', loc') ∈ pre →
             ∃ d' path', dijkstra loc' t c (graph s) = (Ok (d', path'), graph s) ∧
               dist_ltb (Fin z) d' = true) ∧
          is_path (vertices (graph s)) c loc t path z
    end.
Proof.
  intros Hwf Ht Hlocs Hne.
  assert (Hall : ∀ id loc, (id, loc) ∈ cops s →
     ∃ d path, dijkstra loc t c (graph s) = (Ok (d, path), graph s)).
  { intros id loc Hin.
    destruct (dijkstra_result (graph s) loc t c Hwf (Hlocs _ _ Hin) Ht)
      as (? & l & d & Hr & _). eauto. }
  destruct (nearest_fold s t c (cops s) Hall (None, Inf, None))
    as (r & m & p & Hrun & _ & Hmin & Hwho).
  exists r, m, p. split_and!.
  - unfold find_nearest_cop. rewrite (bind_ok _ _ s (cops s) s) by done.
    destruct (cops s) as [|x cs] eqn:Hcs; [done|].
    by erewrite bind_ok by done.
  - intros id loc Hin. destruct (Hall _ _ Hin) as (d & path & Hd). eauto.
  - destruct Hwho as [[= -> -> ->]|(pre & id & loc & post & path & Hcs & -> & -> & Hd & Hlt & Hpre)];
      [done|].
    destruct m as [z|]; [|done].
    exists pre, id, loc, post, path. split_and!; try done.
    + intros id' loc' Hin.
      destruct (Hall id' loc') as (d' & path' & Hd').
      { rewrite Hcs. apply elem_of_app. by left. }
      eauto.
    + eapply dijkstra_path_cost; eauto. apply (Hlocs id).
      rewrite Hcs. apply elem_of_app. right. left.
Qed.

Lemma find_nearest_cop_first_minimum_witness :
  ∃ r m p, find_nearest_cop 0 "normal" star_dispatch = (Ok (r, Some m, p), star_dispatch) ∧
    (∀ id loc, (id, loc) ∈ cops star_dispatch →
       ∃ d path, dijkstra loc 0 "normal" (graph star_dispatch)
                   = (Ok (d, path), graph star_dispatch) ∧ dist_le m d) ∧
    match m with
    | Inf => r = None ∧ p = None
    | Fin z =>
        ∃ pre id loc post path,
          cops star_dispatch = (pre ++ (id, loc) :: post)%list ∧
          r = Some id ∧ p = Some path ∧
          dijkstra loc 0 "normal" (graph star_dispatch)
            = (Ok (Fin z, path), graph star_dispatch) ∧
          (∀ id' loc', (id', loc') ∈ pre →
             ∃ d' path', dijkstra loc' 0 "normal" (graph star_dispatch)
                           = (Ok (d', path'), graph star_dispatch) ∧
               dist_ltb (Fin z) d' = true) ∧
          is_path (vertices (graph star_dispatch)) "normal" loc 0 path z
    end.
Proof.
  apply find_nearest_cop_first_minimum.
  - apply wf_check_sound. vm_compute. reflexivity.
  - apply in_dom_check. vm_compute. reflexivity.
  - intros id loc Hin. apply in_dom_check.
    repeat (apply elem_of_cons in Hin as [[= -> ->]|Hin]; [vm_compute; reflexivity|]).
    by apply elem_of_nil in Hin.
  - discriminate.
Defined.

(** The specification's example: resources at 7, 3 and 9 minutes. *)
Example find_nearest_cop_star :
  (find_nearest_cop 0 "normal" star_dispatch).1 = Ok (Some "R2", Some (Fin 3), Some [2; 0]) ∧
  path_cost (vertices star_graph) "normal" [2; 0] = Some 3.
Proof. split; vm_compute; reflexivity. Qed.

(** C7, as stated, fails: a directory that is not empty, none of whose
    resources reaches the target, gets no resource back. *)
Lemma find_nearest_cop_all_unreachable :
  cops island_dispatch ≠ [] ∧ 3 ∈ dom (vertices (graph island_dispatch)) ∧
  (find_nearest_cop 3 "normal" island_dispatch).1 = Ok (None, Some Inf, None).
Proof.
  split_and!; [discriminate| |by vm_compute].
  apply in_dom_check. vm_compute. reflexivity.
Qed.

(** C8 (as the code has it). With no assignment at all,
    [find_nearest_cop] raises nothing: it returns the triple of [None], for
    every target and condition, without a single shortest-path query and
    without touching the directory; a directory that holds an assignment
    never returns that triple (its cost component is a number, infinite
    when nothing reaches the target). *)
Theorem find_nearest_cop_no_cops g t c :
  find_nearest_cop t c (mkDispatch g []) = (Ok (None, None, None), mkDispatch g []) ∧
  ∀ cop cs, (find_nearest_cop t c (mkDispatch g (cop :: cs))).1 ≠ Ok (None, None, None).
Proof.
  split; [reflexivity|]. intros cop cs. unfold find_nearest_cop.
  rewrite (bind_ok _ _ _ (cop :: cs) (mkDispatch g (cop :: cs))) by done.
  unfold bind, ret.
  destruct (for_eachM _ _ _ _) as [[[[r m] p]| |] s']; done.
Qed.

(** C8, as stated, fails: on an empty directory the call does not fail
    with an error, it returns normally. *)
Lemma find_nearest_cop_empty_returns :
  cops (mkDispatch scenario_graph []) = [] ∧
  (find_nearest_cop 2 "normal" (mkDispatch scenario_graph [])).1
    = Ok (None, None, None) ∧
  ¬ ∃ e, (find_nearest_cop 2 "normal" (mkDispatch scenario_graph [])).1 = Raise e.
Proof. split_and!; [done..|]. by intros [e H]. Qed.

(** C10. The three queries hand back the object exactly as they found it,
    whatever they return or raise: the graph (vertex set, coordinates,
    adjacency, weights) for [dijkstra] and [get_path_description], the graph
    and the resource map for [find_nearest_cop]. *)
Theorem queries_leave_state_unchanged :
  (∀ a b c g, (dijkstra a b c g).2 = g) ∧
  (∀ degrees_atan2 path c g, (get_path_description degrees_atan2 path c g).2 = g) ∧
  (∀ t c s, (find_nearest_cop t c s).2 = s).
Proof.
  split_and!.
  - intros a b c g. apply readonly_dijkstra.
  - intros atan path c g. apply readonly_get_path_description.
  - intros t c s. apply readonly_find_nearest_cop.
Qed.

(** * The route narrator *)

Example scenario_description :
  (get_path_description compass_degrees [0; 1; 2] "normal" scenario_graph).1
    = Ok ("From vertex 0 go east to vertex 1 (5 minutes)" +:+ newline +:+
          "From vertex 1 go east to vertex 2 (5 minutes)" +:+ newline +:+
          newline +:+ "Total time: 10 minutes").
Proof. vm_compute. reflexivity. Qed.

Example short_path_is_invalid :
  (get_path_description compass_degrees [0] "normal" scenario_graph).1 = Ok "Invalid path".
Proof. vm_compute. reflexivity. Qed.

Lemma Qle_bool_reflect a b : reflect (a <= b)%Q (Qle_bool a b).
Proof. apply iff_reflect. symmetry. apply Qle_bool_iff. Qed.

(** The comparison chain, read off branch by branch. *)
Lemma direction_of_angle_cases (a : Q) :
  (direction_of_angle a = "east" ∧ -22.5 <= a ∧ a <= 22.5)%Q ∨
  (direction_of_angle a = "northeast" ∧ 22.5 < a ∧ a <= 67.5)%Q ∨
  (direction_of_angle a = "north" ∧ 67.5 < a ∧ a <= 112.5)%Q ∨
  (direction_of_angle a = "northwest" ∧ 112.5 < a ∧ a <= 157.5)%Q ∨
  (direction_of_angle a = "west" ∧ (157.5 < a ∨ a <= -157.5))%Q ∨
  (direction_of_angle a = "southwest" ∧ -157.5 < a ∧ a <= -112.5)%Q ∨
  (direction_of_angle a = "south" ∧ -112.5 < a ∧ a <= -67.5)%Q ∨
  (direction_of_angle a = "southeast" ∧ -67.5 < a ∧ a < -22.5)%Q.
Proof.
  unfold direction_of_angle, Qlt_bool.
  repeat match goal with
    | |- context [Qle_bool ?x ?y] =>
        destruct (Qle_bool_reflect x y) as [?|?%Qnot_le_lt]
    end; cbn [negb andb orb];
    try (exfalso; lra);
    repeat (first [ left; split; [reflexivity|]; lra
                  | left; split; [reflexivity|]; split; lra
                  | right ]);
    split; [reflexivity|]; split; lra.
Qed.

(** C6 (as the code has it). The direction is read off the angle
    [degrees(atan2(dy, dx))] by the sectors below: east is closed at both
    edges, southeast open at both, and every other sector is open at its
    midpoint-minus-22.5 edge and closed at its midpoint-plus-22.5 edge, west
    straddling the jump from 180 to -180.  Given the library's values at the
    three displacements, (1, 0) is east, (0, 1) north and (-1, -1)
    southwest. *)
Theorem get_direction_sectors (degrees_atan2 : Q → Q → Q) :
  (degrees_atan2 0 1 == 0)%Q →
  (degrees_atan2 1 0 == 90)%Q →
  (degrees_atan2 (-1) (-1) == -135)%Q →
  (∀ dx dy, let angle := degrees_atan2 dy dx in
     (_get_direction degrees_atan2 dx dy = "east" ↔ -22.5 <= angle ∧ angle <= 22.5)%Q ∧
     (_get_direction degrees_atan2 dx dy = "northeast" ↔ 22.5 < angle ∧ angle <= 67.5)%Q ∧
     (_get_direction degrees_atan2 dx dy = "north" ↔ 67.5 < angle ∧ angle <= 112.5)%Q ∧
     (_get_direction degrees_atan2 dx dy = "northwest" ↔ 112.5 < angle ∧ angle <= 157.5)%Q ∧
     (_get_direction degrees_atan2 dx dy = "west" ↔ 157.5 < angle ∨ angle <= -157.5)%Q ∧
     (_get_direction degrees_atan2 dx dy = "southwest" ↔ -157.5 < angle ∧ angle <= -112.5)%Q ∧
     (_get_direction degrees_atan2 dx dy = "south" ↔ -112.5 < angle ∧ angle <= -67.5)%Q ∧
     (_get_direction degrees_atan2 dx dy = "southeast" ↔ -67.5 < angle ∧ angle < -22.5)%Q) ∧
  _get_direction degrees_atan2 1 0 = "east" ∧
  _get_direction degrees_atan2 0 1 = "north" ∧
  _get_direction degrees_atan2 (-1) (-1) = "southwest".
Proof.
  intros He Hn Hsw.
  assert (Hall : ∀ dx dy, let angle := degrees_atan2 dy dx in
     (_get_direction degrees_atan2 dx dy = "east" ↔ -22.5 <= angle ∧ angle <= 22.5)%Q ∧
     (_get_direction degrees_atan2 dx dy = "northeast" ↔ 22.5 < angle ∧ angle <= 67.5)%Q ∧
     (_get_direction degrees_atan2 dx dy = "north" ↔ 67.5 < angle ∧ angle <= 112.5)%Q ∧
     (_get_direction degrees_atan2 dx dy = "northwest" ↔ 112.5 < angle ∧ angle <= 157.5)%Q ∧
     (_get_direction degrees_atan2 dx dy = "west" ↔ 157.5 < angle ∨ angle <= -157.5)%Q ∧
     (_get_direction degrees_atan2 dx dy = "southwest" ↔ -157.5 < angle ∧ angle <= -112.5)%Q ∧
     (_get_direction degrees_atan2 dx dy = "south" ↔ -112.5 < angle ∧ angle <= -67.5)%Q ∧
     (_get_direction degrees_atan2 dx dy = "southeast" ↔ -67.5 < angle ∧ angle < -22.5)%Q).
  { intros dx dy angle. unfold _get_direction. fold angle.
    destruct (direction_of_angle_cases angle)
      as [[-> ?]|[[-> ?]|[[-> ?]|[[-> ?]|[[-> ?]|[[-> ?]|[[-> ?]|[-> ?]]]]]]]];
      repeat split; intros; try discriminate; try lra. }
  split; [exact Hall|]. split_and!.
  - apply (Hall 1%Q 0%Q). lra.
  - apply (Hall 0%Q 1%Q). lra.
  - apply (Hall (-1)%Q (-1)%Q). lra.
Qed.

Lemma get_direction_sectors_witness :
  (∀ dx dy, let angle := compass_degrees dy dx in
     (_get_direction compass_degrees dx dy = "east" ↔ -22.5 <= angle ∧ angle <= 22.5)%Q ∧
     (_get_direction compass_degrees dx dy = "northeast" ↔ 22.5 < angle ∧ angle <= 67.5)%Q ∧
     (_get_direction compass_degrees dx dy = "north" ↔ 67.5 < angle ∧ angle <= 112.5)%Q ∧
     (_get_direction compass_degrees dx dy = "northwest" ↔ 112.5 < angle ∧ angle <= 157.5)%Q ∧
     (_get_direction compass_degrees dx dy = "west" ↔ 157.5 < angle ∨ angle <= -157.5)%Q ∧
     (_get_direction compass_degrees dx dy = "southwest" ↔ -157.5 < angle ∧ angle <= -112.5)%Q ∧
     (_get_direction compass_degrees dx dy = "south" ↔ -112.5 < angle ∧ angle <= -67.5)%Q ∧
     (_get_direction compass_degrees dx dy = "southeast" ↔ -67.5 < angle ∧ angle < -22.5)%Q) ∧
  _get_direction compass_degrees 1 0 = "east" ∧
  _get_direction compass_degrees 0 1 = "north" ∧
  _get_direction compass_degrees (-1) (-1) = "southwest".
Proof. apply get_direction_sectors; vm_compute; reflexivity. Defined.

(** C6, as stated, fails on a sector edge: at 22.5 degrees the code says
    east, where a sector closed at its lower edge would say northeast; at
    -22.5 degrees it says east where the stated convention agrees, and at
    67.5 it says northeast where the stated convention says north. *)
Lemma direction_at_sector_edge :
  direction_of_angle 22.5 = "east" ∧ spec_sector 22.5 = "northeast" ∧
  direction_of_angle 67.5 = "northeast" ∧ spec_sector 67.5 = "north" ∧
  direction_of_angle 22.5 ≠ spec_sector 22.5.
Proof. split_and!; try (vm_compute; reflexivity). vm_compute. discriminate. Qed.

(** * More about graph construction *)

Lemma not_in_dom_check (vs : gmap Z Vertex) a :
  bool_decide (a ∈ dom vs) = false → a ∉ dom vs.
Proof. apply bool_decide_eq_false. Qed.

Lemma add_edge_fail g id1 id2 l n r :
  id1 ∉ dom (vertices g) ∨ id2 ∉ dom (vertices g) →
  add_edge id1 id2 l n r g =
    (Raise (ValueError "Both vertices must exist in the graph"), g).
Proof.
  intros H. unfold add_edge. rewrite (bind_ok _ _ g (vertices g) g) by done.
  destruct H as [H|H].
  - by rewrite (bool_decide_false _ H).
  - rewrite (bool_decide_false _ H). by rewrite orb_true_r.
Qed.

Lemma exec_add_edge_fail g id1 id2 l n r :
  id1 ∉ dom (vertices g) ∨ id2 ∉ dom (vertices g) →
  exec (add_edge id1 id2 l n r) g = g.
Proof. intros H. unfold exec. by rewrite add_edge_fail. Qed.

Lemma adj_add_edge g id1 id2 l n r u k :
  id1 ∈ dom (vertices g) → id2 ∈ dom (vertices g) →
  adj (vertices (exec (add_edge id1 id2 l n r) g)) u k =
    if decide ((u = id1 ∧ k = id2) ∨ (u = id2 ∧ k = id1))
    then Some (mkEdge id1 id2 (mkWeights l n r))
    else adj (vertices g) u k.
Proof.
  intros H1 H2. unfold exec. rewrite add_edge_ok by done. unfold adj. simpl.
  apply elem_of_dom in H1 as [v1 Hv1]. apply elem_of_dom in H2 as [v2 Hv2].
  rewrite !lookup_alter.
  destruct (decide (id2 = u)) as [->|Hu2]; destruct (decide (id1 = u)) as [->|Hu1];
    rewrite ?Hv1, ?Hv2; simpl; rewrite ?dict_get_set;
    repeat case_decide; try done; naive_solver.
Qed.

Lemma place_add_edge g id1 id2 l n r u :
  (λ v, (vid v, vx v, vy v)) <$> vertices (exec (add_edge id1 id2 l n r) g) !! u =
  (λ v, (vid v, vx v, vy v)) <$> vertices g !! u.
Proof.
  destruct (decide (id1 ∈ dom (vertices g) ∧ id2 ∈ dom (vertices g))) as [[H1 H2]|H].
  - unfold exec. rewrite add_edge_ok by done. simpl. rewrite !lookup_alter.
    repeat case_decide; subst;
      repeat match goal with
        | |- context [vertices g !! ?k] => destruct (vertices g !! k)
        end; done.
  - rewrite exec_add_edge_fail; [done|].
    destruct (decide (id1 ∈ dom (vertices g))); [right|left]; naive_solver.
Qed.

Lemma adj_add_vertex g id x y u k :
  adj (vertices (exec (add_vertex id x y) g)) u k =
    if decide (u = id) then None else adj (vertices g) u k.
Proof.
  unfold exec, adj. simpl. rewrite lookup_insert.
  destruct (decide (id = u)) as [->|?]; [by rewrite decide_True|].
  by rewrite decide_False by done.
Qed.

Lemma adj_dom vs u k e : wf_vertices vs → adj vs u k = Some e → u ∈ dom vs ∧ k ∈ dom vs.
Proof.
  unfold adj. intros Hwf H. destruct (vs !! u) as [vu|] eqn:Hu; simpl in H; [|done].
  split; [apply elem_of_dom; eauto|].
  destruct (Hwf _ _ Hu) as [_ Hd]. eapply Hd, dict_get_elem, H.
Qed.

Lemma built_wf g : built g → wf_graph g.
Proof.
  induction 1 as [|g id x y _ IH|g id1 id2 l n r _ IH].
  - apply wf_graph_init.
  - by apply wf_add_vertex.
  - destruct (decide (id1 ∈ dom (vertices g) ∧ id2 ∈ dom (vertices g))) as [[H1 H2]|H].
    + by apply wf_add_edge.
    + rewrite exec_add_edge_fail; [done|].
      destruct (decide (id1 ∈ dom (vertices g))); [right|left]; naive_solver.
Qed.

Lemma built_labelled g : built g → labelled (vertices g).
Proof.
  induction 1 as [|g id x y _ [IH1 IH2]|g id1 id2 l n r _ [IH1 IH2]].
  - split; [by intros u vu ?|]. by intros u k e ?.
  - split.
    + intros u vu. unfold exec. simpl. rewrite lookup_insert.
      case_decide; subst; [by intros [= <-]|by eauto].
    + intros u k e. rewrite adj_add_vertex. case_decide; [done|by eauto].
  - destruct (decide (id1 ∈ dom (vertices g) ∧ id2 ∈ dom (vertices g))) as [[H1 H2]|H].
    2:{ rewrite exec_add_edge_fail; [done|].
        destruct (decide (id1 ∈ dom (vertices g))); [right|left]; naive_solver. }
    split.
    + intros u vu Hu.
      pose proof (place_add_edge g id1 id2 l n r u) as Hp. rewrite Hu in Hp.
      destruct (vertices g !! u) as [v0|] eqn:Hv0; simpl in Hp; [|done].
      injection Hp as -> _ _. by eapply IH1.
    + intros u k e. rewrite adj_add_edge by done.
      case_decide as Hc; [|by eauto]. intros [= <-]. simpl. naive_solver.
Qed.

Lemma built_fresh_built g : built_fresh g → built g.
Proof. induction 1; by constructor. Qed.

Lemma built_fresh_sym g : built_fresh g → sym_vertices (vertices g).
Proof.
  induction 1 as [|g id x y Hb IH Hid|g id1 id2 l n r Hb IH].
  - by intros u k e ?.
  - pose proof (built_wf _ (built_fresh_built _ Hb)) as Hwf.
    intros u k e. rewrite !adj_add_vertex. case_decide; [done|]. intros Ha.
    destruct (adj_dom _ _ _ _ Hwf Ha) as [_ Hk].
    rewrite decide_False by (intros ->; done). by apply IH.
  - destruct (decide (id1 ∈ dom (vertices g) ∧ id2 ∈ dom (vertices g))) as [[H1 H2]|H].
    2:{ rewrite exec_add_edge_fail; [done|].
        destruct (decide (id1 ∈ dom (vertices g))); [right|left]; naive_solver. }
    intros u k e. rewrite !adj_add_edge by done.
    destruct (decide ((u = id1 ∧ k = id2) ∨ (u = id2 ∧ k = id1))) as [Hc|Hc].
    + intros <-. rewrite decide_True by naive_solver. done.
    + intros Ha. rewrite decide_False by naive_solver. by apply IH.
Qed.

Lemma sym_check_sound vs : sym_check vs = true → sym_vertices vs.
Proof.
  intros H%bool_decide_eq_true u k e Ha. unfold adj in Ha.
  destruct (vs !! u) as [vu|] eqn:Hu; simpl in Ha; [|done].
  specialize (H u vu Hu). simpl in H. rewrite Forall_forall in H.
  exact (H _ (dict_get_elem _ _ _ Ha)).
Qed.

(** X1. [add_edge] with an endpoint that is not in the graph raises
    [ValueError] and leaves the graph as it was. *)
Theorem add_edge_unknown_vertex g id1 id2 l n r :
  id1 ∉ dom (vertices g) ∨ id2 ∉ dom (vertices g) →
  add_edge id1 id2 l n r g =
    (Raise (ValueError "Both vertices must exist in the graph"), g).
Proof. apply add_edge_fail. Qed.

Lemma add_edge_unknown_vertex_witness :
  add_edge 0 9 1 2 3 scenario_graph =
    (Raise (ValueError "Both vertices must exist in the graph"), scenario_graph).
Proof.
  apply add_edge_unknown_vertex. right.
  apply not_in_dom_check. vm_compute. reflexivity.
Defined.

(** X2. After a successful [add_edge id1 id2] the edge is found from both
    endpoints, it replaces whatever edge joined the two before (the last
    edge wins), every other adjacency entry is as before, and no vertex has
    changed its id or position. *)
Theorem add_edge_lookup g id1 id2 l n r :
  id1 ∈ dom (vertices g) → id2 ∈ dom (vertices g) →
  (∀ u k, adj (vertices (exec (add_edge id1 id2 l n r) g)) u k =
     if decide ((u = id1 ∧ k = id2) ∨ (u = id2 ∧ k = id1))
     then Some (mkEdge id1 id2 (mkWeights l n r))
     else adj (vertices g) u k) ∧
  (∀ u, (λ v, (vid v, vx v, vy v)) <$> vertices (exec (add_edge id1 id2 l n r) g) !! u =
        (λ v, (vid v, vx v, vy v)) <$> vertices g !! u).
Proof.
  intros H1 H2. split.
  - intros u k. by apply adj_add_edge.
  - intros u. apply place_add_edge.
Qed.

Lemma add_edge_lookup_witness :
  (∀ u k, adj (vertices (exec (add_edge 0 1 7 8 9) scenario_graph)) u k =
     if decide ((u = 0 ∧ k = 1) ∨ (u = 1 ∧ k = 0))
     then Some (mkEdge 0 1 (mkWeights 7 8 9))
     else adj (vertices scenario_graph) u k) ∧
  (∀ u, (λ v, (vid v, vx v, vy v)) <$>
          vertices (exec (add_edge 0 1 7 8 9) scenario_graph) !! u =
        (λ v, (vid v, vx v, vy v)) <$> vertices scenario_graph !! u).
Proof. apply add_edge_lookup; apply in_dom_check; vm_compute; reflexivity. Defined.

(** X3. Whatever sequence of [add_vertex] and [add_edge] calls built it, a
    graph has unique adjacency keys that name vertices of the graph, every
    vertex is stored under its own id, and an edge found at [u] under [k]
    joins [u] and [k]. *)
Theorem built_graph_invariants g :
  built g → wf_graph g ∧ labelled (vertices g).
Proof. intros H. split; [by apply built_wf|by apply built_labelled]. Qed.

Lemma built_graph_invariants_witness :
  wf_graph (exec (add_edge 0 1 4 5 9)
              (exec (add_vertex 0 7 7) (exec (add_vertex 1 1 0)
                (exec (add_vertex 0 0 0) Graph_init)))) ∧
  labelled (vertices (exec (add_edge 0 1 4 5 9)
              (exec (add_vertex 0 7 7) (exec (add_vertex 1 1 0)
                (exec (add_vertex 0 0 0) Graph_init))))).
Proof. apply built_graph_invariants. repeat constructor. Defined.

(** X4. When [add_vertex] is only called on ids that are not in the graph
    yet, adjacency stays symmetric: the edge found at [u] under [k] is the
    edge found at [k] under [u]. *)
Theorem built_fresh_symmetric g :
  built_fresh g → sym_vertices (vertices g).
Proof. apply built_fresh_sym. Qed.

Lemma built_fresh_symmetric_witness :
  sym_vertices (vertices (exec (add_edge 0 1 4 5 9)
     (exec (add_vertex 1 1 0) (exec (add_vertex 0 0 0) Graph_init)))).
Proof.
  apply built_fresh_symmetric. constructor. constructor; [constructor|].
  - constructor.
  - set_solver.
  - apply not_in_dom_check. vm_compute. reflexivity.
Defined.

(** * More about the shortest-path engine *)

Lemma rev_reverse {A} (l : list A) : rev l = reverse l.
Proof. unfold reverse. apply rev_alt. Qed.

Lemma chain_functional preds n l l' : chain preds n l → chain preds n l' → l = l'.
Proof.
  intros H. revert l'. induction H as [n Hn|n u l Hn Hc IH]; intros l' H'.
  - inversion H'; subst; congruence.
  - inversion H' as [|n' u' l'' Hn' Hc']; subst; [congruence|].
    assert (u' = u) as -> by congruence. f_equal. by apply IH.
Qed.


Lemma dijkstra_below_walk g a b c k :
  wf_graph g → nonneg_costs (vertices g) c →
  a ∈ dom (vertices g) → b ∈ dom (vertices g) → walk (vertices g) c a b k →
  ∃ d path, dijkstra a b c g = (Ok (d, path), g) ∧ dist_le d (Fin k).
Proof.
  intros Hwf Hnn Ha Hb Hw.
  destruct (dijkstra_result g a b c Hwf Ha Hb)
    as (last & l & d & -> & Hinv & Hd & Hc & Hlast).
  exists d, (rev l). split; [done|].
  destruct (walk_bound _ _ _ last b k Hnn Hinv Hw)
    as [(w & zw & Hwv & Hdw & Hle)|(_ & zv & Hdv & Hle)].
  - pose proof (inv_open Hinv _ _ Hwv Hdw) as Hin.
    destruct Hlast as [Hq|(d' & q' & Hpop)].
    { rewrite Hq in Hin. by apply elem_of_nil in Hin. }
    destruct (heappop_Some _ _ _ Hpop) as [Hperm Hmin].
    assert ((d', b) ∈ pq last) as Hb' by (rewrite Hperm; left).
    destruct (inv_pq Hinv _ _ Hb') as (z & z' & -> & Hdb & ?).
    assert (z ≤ zw).
    { rewrite Hperm in Hin. apply elem_of_cons in Hin as [?|Hin]; [simplify_eq; lia|].
      apply Hmin, entry_le_dist in Hin. done. }
    rewrite Hd in Hdb. simplify_eq. simpl. lia.
  - rewrite Hd in Hdv. simplify_eq. simpl. lia.
Qed.

Lemma dijkstra_fail a b c g :
  a ∉ dom (vertices g) ∨ b ∉ dom (vertices g) →
  dijkstra a b c g =
    (Raise (ValueError "Both start and end vertices must exist in the graph"), g).
Proof.
  intros H. unfold dijkstra. rewrite (bind_ok _ _ g (vertices g) g) by done.
  destruct H as [H|H].
  - by rewrite (bool_decide_false _ H).
  - rewrite (bool_decide_false _ H). by rewrite orb_true_r.
Qed.

Lemma dijkstra_self g a c :
  a ∈ dom (vertices g) → dijkstra a a c g = (Ok (Fin 0, [a]), g).
Proof.
  intros Ha. rewrite dijkstra_unfold by done.
  unfold loop_fuel, path_fuel. cbn [Nat.add dijkstra_while dijkstra_init pq].
  rewrite heappop_singleton. rewrite decide_True by done.
  unfold bind, ret, liftR. cbn [with_pq predecessors distances walk_back].
  apply elem_of_dom in Ha as [va Ha]. unfold dijkstra_init. simpl.
  rewrite lookup_fmap, Ha. simpl. rewrite walk_back_None. by rewrite lookup_insert_eq.
Qed.

(** X5. [dijkstra] with a start or an end that is not in the graph raises
    [ValueError] before doing anything else. *)
Theorem dijkstra_unknown_vertex a b c g :
  a ∉ dom (vertices g) ∨ b ∉ dom (vertices g) →
  dijkstra a b c g =
    (Raise (ValueError "Both start and end vertices must exist in the graph"), g).
Proof. apply dijkstra_fail. Qed.

Lemma dijkstra_unknown_vertex_witness :
  dijkstra 0 9 "light" scenario_graph =
    (Raise (ValueError "Both start and end vertices must exist in the graph"),
     scenario_graph).
Proof.
  apply dijkstra_unknown_vertex. right. apply not_in_dom_check. vm_compute. reflexivity.
Defined.

(** X6. The path [dijkstra] returns never visits a vertex twice, ends at
    the target, holds only vertices of the graph and is no longer than the
    number of vertices; this holds for costs of any sign. *)
Theorem dijkstra_path_simple g a b c :
  wf_graph g → a ∈ dom (vertices g) → b ∈ dom (vertices g) →
  ∃ d path, dijkstra a b c g = (Ok (d, path), g) ∧
    NoDup path ∧ last path = Some b ∧
    (∀ x, x ∈ path → x ∈ dom (vertices g)) ∧
    (length path ≤ size (vertices g))%nat.
Proof.
  intros Hwf Ha Hb.
  destruct (dijkstra_result g a b c Hwf Ha Hb)
    as (last & l & d & -> & Hinv & Hd & Hc & _).
  destruct (chain_any _ _ _ last b Hinv Hb) as (l' & Hc' & Hnd & Hl).
  assert (l' = l) as -> by by eapply chain_functional.
  exists d, (rev l). rewrite rev_reverse. split_and!; [done|..].
  - by rewrite reverse_Permutation.
  - rewrite last_reverse. by destruct (chain_head _ _ _ Hc) as [? ->].
  - intros x Hx. rewrite elem_of_reverse in Hx. destruct (Hl x Hx) as [->|?]; [done|].
    by eapply visited_dom.
  - rewrite length_reverse. by eapply chain_length.
Qed.

Lemma dijkstra_path_simple_witness :
  ∃ d path, dijkstra 29 26 "rush_hour" create_map = (Ok (d, path), create_map) ∧
    NoDup path ∧ last path = Some 26 ∧
    (∀ x, x ∈ path → x ∈ dom (vertices create_map)) ∧
    (length path ≤ size (vertices create_map))%nat.
Proof.
  apply dijkstra_path_simple.
  - apply wf_check_sound. vm_compute. reflexivity.
  - apply in_dom_check. vm_compute. reflexivity.
  - apply in_dom_check. vm_compute. reflexivity.
Defined.



Lemma sym_adj_eq vs u k : sym_vertices vs → adj vs u k = adj vs k u.
Proof.
  intros Hs. destruct (adj vs u k) as [e|] eqn:H1.
  - symmetry. by apply Hs.
  - destruct (adj vs k u) as [e|] eqn:H2; [|done].
    apply Hs in H2. congruence.
Qed.

Lemma path_cost_cons2 vs c x y q :
  path_cost vs c (x :: y :: q) =
    e ← adj vs x y; total ← path_cost vs c (y :: q); Some (get_weight e c + total).
Proof. unfold adj. simpl. by destruct (vs !! x). Qed.

Lemma path_cost_rev vs c p :
  sym_vertices vs → path_cost vs c (rev p) = path_cost vs c p.
Proof.
  intros Hs. induction p as [|x p IH]; [done|].
  destruct p as [|y q]; [done|].
  rewrite path_cost_cons2, <- IH.
  change (rev (x :: y :: q)) with ((rev q ++ [y]) ++ [x])%list.
  rewrite <- app_assoc. simpl app. rewrite path_cost_snoc.
  change (rev (y :: q)) with (rev q ++ [y])%list.
  rewrite (sym_adj_eq vs x y Hs). unfold adj.
  destruct (path_cost vs c (rev q ++ [y])) as [k|]; simpl;
    destruct (vs !! y) as [vy|]; simpl; try done;
    destruct (dict_get (edges vy) x); simpl; try done.
  f_equal. lia.
Qed.

Lemma is_path_rev vs c a b p k :
  sym_vertices vs → is_path vs c a b p k → is_path vs c b a (rev p) k.
Proof.
  intros Hs (Hh & Hl & Hc). unfold is_path.
  rewrite path_cost_rev by done. rewrite rev_reverse, head_reverse, last_reverse. done.
Qed.

(** X8. For integer (exact) costs: in a graph with symmetric adjacency
    and non-negative costs the trip costs the same in both directions,
    [dijkstra a b] and [dijkstra b a] return the same cost.  (With [float]
    costs the two sums are taken in opposite orders and may round apart.) *)
Theorem dijkstra_symmetric g a b c :
  wf_graph g → sym_vertices (vertices g) → nonneg_costs (vertices g) c →
  a ∈ dom (vertices g) → b ∈ dom (vertices g) →
  ∃ d p1 p2, dijkstra a b c g = (Ok (d, p1), g) ∧ dijkstra b a c g = (Ok (d, p2), g).
Proof.
  intros Hwf Hs Hnn Ha Hb.
  destruct (dijkstra_result g a b c Hwf Ha Hb) as (st1 & l1 & d1 & H1 & _).
  destruct (dijkstra_result g b a c Hwf Hb Ha) as (st2 & l2 & d2 & H2 & _).
  assert (Hle : ∀ x y dx dy px py,
    x ∈ dom (vertices g) → y ∈ dom (vertices g) →
    dijkstra x y c g = (Ok (dx, px), g) → dijkstra y x c g = (Ok (dy, py), g) →
    dist_le dy dx).
  { intros x y dx dy px py Hx Hy Hxy Hyx. destruct dx as [z|]; [|by destruct dy].
    pose proof (dijkstra_path_cost g x y c z px Hwf Hx Hy Hxy) as Hp.
    apply (is_path_rev _ _ _ _ _ _ Hs) in Hp. destruct Hp as (Hh & Hl & Hc).
    pose proof (path_walk _ _ _ _ _ _ Hh Hl Hc) as Hw.
    destruct (dijkstra_below_walk g y x c z Hwf Hnn Hy Hx Hw) as (d & p & Hr & ?).
    rewrite Hyx in Hr. by simplify_eq. }
  pose proof (Hle a b d1 d2 _ _ Ha Hb H1 H2) as L1.
  pose proof (Hle b a d2 d1 _ _ Hb Ha H2 H1) as L2.
  assert (d1 = d2) as ->.
  { destruct d1, d2; simpl in *; try done. f_equal. lia. }
  eauto.
Qed.

Lemma dijkstra_symmetric_witness :
  ∃ d p1 p2, dijkstra 29 26 "rush_hour" create_map = (Ok (d, p1), create_map) ∧
    dijkstra 26 29 "rush_hour" create_map = (Ok (d, p2), create_map).
Proof.
  apply dijkstra_symmetric.
  - apply wf_check_sound. vm_compute. reflexivity.
  - apply sym_check_sound. vm_compute. reflexivity.
  - apply nonneg_check_sound. vm_compute. reflexivity.
  - apply in_dom_check. vm_compute. reflexivity.
  - apply in_dom_check. vm_compute. reflexivity.
Defined.

(** * More about the route narrator *)

Lemma describe_steps_cons2 atan c x y q acc :
  describe_steps atan c (x :: y :: q) acc =
    (vs <- gets vertices ;;
     current_vertex <- liftR (subscript (vs !! x)) ;;
     next_vertex <- liftR (subscript (vs !! y)) ;;
     edge <- liftR (subscript (dict_get (edges current_vertex) y)) ;;
     describe_steps atan c (y :: q)
       ((acc.1 ++ ["From vertex " +:+ pretty x +:+ " go " +:+
                   _get_direction atan (vx next_vertex - vx current_vertex)%Q
                                       (vy next_vertex - vy current_vertex)%Q
                   +:+ " to vertex " +:+ pretty y
                   +:+ " (" +:+ pretty (get_weight edge c) +:+ " minutes)"])%list,
        acc.2 + get_weight edge c)).
Proof. reflexivity. Qed.

Lemma describe_steps_ok atan c g : wf_graph g → ∀ path acc k,
  path_cost (vertices g) c path = Some k →
  ∃ lines, length lines = (length path - 1)%nat ∧
    describe_steps atan c path acc g = (Ok ((acc.1 ++ lines)%list, acc.2 + k), g).
Proof.
  intros Hwf. induction path as [|x path IH]; intros [ls t] k Hk.
  { simpl in *. simplify_eq. exists []. by rewrite app_nil_r, Z.add_0_r. }
  destruct path as [|y q].
  { simpl in *. simplify_eq. exists []. by rewrite app_nil_r, Z.add_0_r. }
  rewrite path_cost_cons2 in Hk. unfold adj in Hk.
  destruct (path_cost (vertices g) c (y :: q)) as [total|] eqn:Ht;
    destruct (vertices g !! x) as [vx|] eqn:Hx; simpl in Hk; try done;
    destruct (dict_get (edges vx) y) as [e|] eqn:He; simpl in Hk; try done.
  injection Hk as <-.
  assert (is_Some (vertices g !! y)) as [vy Hy].
  { apply elem_of_dom. destruct (Hwf _ _ Hx) as [_ Hd]. eapply Hd, dict_get_elem, He. }
  rewrite describe_steps_cons2. unfold bind, gets, liftR. rewrite Hx, Hy. cbn [subscript].
  rewrite He. cbn [subscript fst snd].
  match goal with |- context [describe_steps _ _ _ ?acc' _] =>
    destruct (IH acc' total eq_refl) as (lines & Hlen & ->) end.
  eexists (_ :: lines). split; [simpl in *; lia|].
  cbn [fst snd]. rewrite <- app_assoc. simpl. do 3 f_equal. lia.
Qed.

Lemma describe_steps_fail atan c g : ∀ path acc,
  path_cost (vertices g) c path = None →
  describe_steps atan c path acc g = (Raise KeyError, g).
Proof.
  induction path as [|x path IH]; intros acc Hk; [done|].
  destruct path as [|y q]; [done|].
  rewrite path_cost_cons2 in Hk. unfold adj in Hk.
  rewrite describe_steps_cons2. unfold bind, gets, liftR.
  destruct (path_cost (vertices g) c (y :: q)) as [total|] eqn:Ht;
    destruct (vertices g !! x) as [vx|] eqn:Hx; simpl in Hk; cbn [subscript]; try done;
    destruct (vertices g !! y) as [vy|] eqn:Hy; cbn [subscript]; try done;
    destruct (dict_get (edges vx) y) as [e|] eqn:He; simpl in Hk; cbn [subscript];
    try done.
  by rewrite IH.
Qed.

Lemma get_path_description_unfold atan path c g :
  (2 ≤ length path)%nat →
  get_path_description atan path c g =
    (acc <- describe_steps atan c path ([], 0) ;;
     ret (String.concat newline
            (acc.1 ++ [newline +:+ "Total time: " +:+ pretty acc.2 +:+ " minutes"])%list)) g.
Proof.
  intros Hlen. unfold get_path_description.
  rewrite bool_decide_false by (intros ->; simpl in Hlen; lia).
  by rewrite bool_decide_false by lia.
Qed.

Lemma describe_ok atan path c g k :
  wf_graph g → (2 ≤ length path)%nat → path_cost (vertices g) c path = Some k →
  ∃ lines, length lines = (length path - 1)%nat ∧
    get_path_description atan path c g =
      (Ok (String.concat newline
             (lines ++ [newline +:+ "Total time: " +:+ pretty k +:+ " minutes"])%list), g).
Proof.
  intros Hwf Hlen Hk. rewrite get_path_description_unfold by done.
  destruct (describe_steps_ok atan c g Hwf path ([], 0) k Hk) as (lines & Hl & Hd).
  exists lines. split; [done|]. by erewrite bind_ok by done.
Qed.

(** X9. For a path of at least two vertices whose consecutive vertices are
    joined by edges, [get_path_description] returns one line per step and a
    last line whose total is the sum of the edge costs along the path under
    the given condition. *)
Theorem get_path_description_total atan path c g k :
  wf_graph g → (2 ≤ length path)%nat → path_cost (vertices g) c path = Some k →
  ∃ lines, length lines = (length path - 1)%nat ∧
    get_path_description atan path c g =
      (Ok (String.concat newline
             (lines ++ [newline +:+ "Total time: " +:+ pretty k +:+ " minutes"])%list), g).
Proof. apply describe_ok. Qed.

Lemma get_path_description_total_witness :
  ∃ lines, length lines = 4%nat ∧
    get_path_description compass_degrees [29; 17; 16; 27; 26] "normal" create_map =
      (Ok (String.concat newline
             (lines ++ [newline +:+ "Total time: " +:+ pretty 49 +:+ " minutes"])%list),
       create_map).
Proof.
  apply (get_path_description_total compass_degrees [29; 17; 16; 27; 26] "normal"
           create_map 49).
  - apply wf_check_sound. vm_compute. reflexivity.
  - simpl. lia.
  - vm_compute. reflexivity.
Defined.

(** X10. For a path of at least two vertices that names an unknown vertex
    or steps between two vertices that no edge joins,
    [get_path_description] raises [KeyError]. *)
Theorem get_path_description_broken atan path c g :
  (2 ≤ length path)%nat → path_cost (vertices g) c path = None →
  get_path_description atan path c g = (Raise KeyError, g).
Proof.
  intros Hlen Hk. rewrite get_path_description_unfold by done.
  unfold bind. by rewrite describe_steps_fail.
Qed.

Lemma get_path_description_broken_witness :
  get_path_description compass_degrees [0; 2] "normal" scenario_graph
    = (Raise KeyError, scenario_graph).
Proof.
  apply get_path_description_broken; [simpl; lia|vm_compute; reflexivity].
Defined.

(** X11. The route of a finite-cost answer between two different vertices
    can always be narrated, and the narrated total is the cost [dijkstra]
    returned. *)
Theorem dijkstra_then_describe atan g a b c z path :
  wf_graph g → a ∈ dom (vertices g) → b ∈ dom (vertices g) → a ≠ b →
  dijkstra a b c g = (Ok (Fin z, path), g) →
  ∃ lines, length lines = (length path - 1)%nat ∧
    get_path_description atan path c g =
      (Ok (String.concat newline
             (lines ++ [newline +:+ "Total time: " +:+ pretty z +:+ " minutes"])%list), g).
Proof.
  intros Hwf Ha Hb Hne Hr.
  destruct (dijkstra_path_cost g a b c z path Hwf Ha Hb Hr) as (Hh & Hl & Hc).
  apply describe_ok; [done| |done].
  destruct path as [|x [|y q]]; simpl in *; [done| |lia]. congruence.
Qed.

Lemma dijkstra_then_describe_witness :
  ∃ lines, length lines = 2%nat ∧
    get_path_description compass_degrees [0; 1; 2] "normal" scenario_graph =
      (Ok (String.concat newline
             (lines ++ [newline +:+ "Total time: " +:+ pretty 10 +:+ " minutes"])%list),
       scenario_graph).
Proof.
  apply (dijkstra_then_describe compass_degrees scenario_graph 0 2 "normal" 10 [0; 1; 2]).
  - apply wf_check_sound. vm_compute. reflexivity.
  - apply in_dom_check. vm_compute. reflexivity.
  - apply in_dom_check. vm_compute. reflexivity.
  - discriminate.
  - vm_compute. reflexivity.
Defined.

(** X12. The route from a vertex to itself is the one-vertex path, which
    [get_path_description] answers with ["Invalid path"]: a resource that
    stands at the target has no narrated route. *)
Theorem dijkstra_self_not_narrated atan g a c :
  a ∈ dom (vertices g) →
  ∃ path, dijkstra a a c g = (Ok (Fin 0, path), g) ∧
    get_path_description atan path c g = (Ok "Invalid path", g).
Proof. intros Ha. exists [a]. split; [by apply dijkstra_self|done]. Qed.

Lemma dijkstra_self_not_narrated_witness :
  ∃ path, dijkstra 2 2 "light" scenario_graph = (Ok (Fin 0, path), scenario_graph) ∧
    get_path_description compass_degrees path "light" scenario_graph
      = (Ok "Invalid path", scenario_graph).
Proof.
  apply dijkstra_self_not_narrated. apply in_dom_check. vm_compute. reflexivity.
Defined.

(** * More about the dispatch directory *)

Section PyDictDel.
Context {K V : Type} `{EqDecision K}.
Implicit Types (d : list (K * V)) (k : K) (v : V).

Lemma dict_del_elem d k k' v' : (k', v') ∈ dict_del d k → (k', v') ∈ d.
Proof.
  induction d as [|[k0 v0] d IH]; simpl; [done|].
  case_decide; rewrite ?elem_of_cons; [by right|]. intros [?|?]; auto.
Qed.

Lemma dict_del_NoDup d k : NoDup d.*1 → NoDup (dict_del d k).*1.
Proof.
  induction d as [|[k0 v0] d IH]; simpl; [done|].
  intros [Hk Hnd]%NoDup_cons. case_decide; [done|]. simpl.
  apply NoDup_cons. split; [|auto].
  intros ([k1 v1] & -> & Hin)%list_elem_of_fmap. apply Hk.
  apply list_elem_of_fmap. exists (k1, v1). split; [done|]. by eapply dict_del_elem.
Qed.

Lemma dict_get_del d k k' :
  NoDup d.*1 →
  dict_get (dict_del d k) k' = if decide (k = k') then None else dict_get d k'.
Proof.
  induction d as [|[k0 v0] d IH]; simpl; intros Hnd.
  - by case_decide.
  - apply NoDup_cons in Hnd as [Hk Hnd].
    destruct (decide (k0 = k)) as [->|Hne]; simpl.
    + destruct (decide (k = k')) as [<-|?]; [|done].
      by apply dict_get_None.
    + rewrite IH by done. destruct (decide (k0 = k')) as [->|?]; [|done].
      by rewrite decide_False by congruence.
Qed.

Lemma dict_del_set_new d k v : dict_get d k = None → dict_del (dict_set d k v) k = d.
Proof.
  induction d as [|[k0 v0] d IH]; simpl.
  - intros _. by rewrite decide_True.
  - destruct (decide (k0 = k)) as [->|Hne]; [done|]. intros Hd. simpl.
    rewrite decide_False by done. by rewrite IH.
Qed.

Lemma dict_set_new d k v : dict_get d k = None → dict_set d k v = (d ++ [(k, v)])%list.
Proof.
  induction d as [|[k0 v0] d IH]; simpl; [done|].
  destruct (decide (k0 = k)) as [->|Hne]; [done|]. intros Hd. by rewrite IH.
Qed.

Lemma dict_set_old_keys d k v : is_Some (dict_get d k) → (dict_set d k v).*1 = d.*1.
Proof.
  induction d as [|[k0 v0] d IH]; simpl; [by intros [? ?]|].
  destruct (decide (k0 = k)) as [->|Hne]; [done|]. intros Hd.
  rewrite !fmap_cons. f_equal. by apply IH.
Qed.
End PyDictDel.

Lemma add_cop_ok cop_id vertex_id s :
  vertex_id ∈ dom (vertices (graph s)) →
  add_cop cop_id vertex_id s =
    (Ok tt, mkDispatch (graph s) (dict_set (cops s) cop_id vertex_id)).
Proof.
  intros H. unfold add_cop. rewrite (bind_ok _ _ s (graph s) s) by done.
  by rewrite bool_decide_true by done.
Qed.

Lemma add_cop_fail cop_id vertex_id s :
  vertex_id ∉ dom (vertices (graph s)) →
  add_cop cop_id vertex_id s = (Raise (ValueError "Invalid vertex ID"), s).
Proof.
  intros H. unfold add_cop. rewrite (bind_ok _ _ s (graph s) s) by done.
  by rewrite bool_decide_false by done.
Qed.

Lemma remove_cop_run cop_id s :
  remove_cop cop_id s =
    (Ok tt, if dict_mem (cops s) cop_id
            then mkDispatch (graph s) (dict_del (cops s) cop_id) else s).
Proof.
  unfold remove_cop. rewrite (bind_ok _ _ s (cops s) s) by done.
  by destruct (dict_mem (cops s) cop_id).
Qed.

Lemma dict_mem_false {K V} `{EqDecision K} (d : list (K * V)) k :
  dict_mem d k = false → dict_get d k = None.
Proof.
  unfold dict_mem. intros H%bool_decide_eq_false.
  destruct (dict_get d k); [|done]. destruct H. eauto.
Qed.

Lemma dispatch_check_sound s : dispatch_check s = true → dispatch_ok s.
Proof.
  unfold dispatch_check. rewrite !andb_true_iff, !bool_decide_eq_true.
  intros [[Hwf Hnd] Hall]. split_and!; [by apply wf_check_sound|done|].
  intros id loc Hin. rewrite Forall_forall in Hall. exact (Hall _ Hin).
Qed.

Lemma dispatched_dispatch_ok s : dispatched s → dispatch_ok s.
Proof.
  induction 1 as [|s cop_id v _ (Hwf & Hnd & Hloc)|s cop_id _ (Hwf & Hnd & Hloc)
                 |s id x y _ (Hwf & Hnd & Hloc)|s id1 id2 l n r _ (Hwf & Hnd & Hloc)].
  - split_and!; [apply wf_graph_init|apply NoDup_nil_2|by intros ? ? ?%elem_of_nil].
  - unfold exec. destruct (decide (v ∈ dom (vertices (graph s)))) as [Hv|Hv].
    + rewrite add_cop_ok by done. split_and!; simpl; [done|by apply dict_set_NoDup|].
      intros id loc [[= -> ->]|Hin]%dict_set_elem; eauto.
    + by rewrite add_cop_fail.
  - unfold exec. rewrite remove_cop_run. simpl.
    destruct (dict_mem (cops s) cop_id); [|done].
    split_and!; simpl; [done|by apply dict_del_NoDup|].
    intros id loc Hin%dict_del_elem. eauto.
  - split_and!; simpl; [by apply (wf_add_vertex (graph s))|done|].
    intros i loc Hin. rewrite dom_insert. apply elem_of_union_r. eauto.
  - unfold exec, zoom.
    destruct (decide (id1 ∈ dom (vertices (graph s)) ∧ id2 ∈ dom (vertices (graph s))))
      as [[H1 H2]|H].
    + pose proof (wf_add_edge (graph s) id1 id2 l n r Hwf H1 H2) as Hwf'.
      unfold exec in Hwf'. rewrite add_edge_ok in * by done.
      split_and!; simpl in *; [done..|].
      intros i loc Hin. rewrite !dom_alter_L. eauto.
    + rewrite add_edge_fail.
      2:{ destruct (decide (id1 ∈ dom (vertices (graph s)))); [right|left]; naive_solver. }
      simpl. rewrite set_graph_id. done.
Qed.

Lemma find_nearest_cop_runs s t c :
  dispatch_ok s → t ∈ dom (vertices (graph s)) →
  ∃ r, find_nearest_cop t c s = (Ok r, s).
Proof.
  intros (Hwf & _ & Hloc) Ht.
  destruct (nearest_fold s t c (cops s)) with (acc := (@None string, Inf, @None (list Z)))
    as (r & m & p & Hrun & _).
  { intros id loc Hin.
    destruct (dijkstra_result (graph s) loc t c Hwf (Hloc _ _ Hin) Ht)
      as (? & l & d & Hr & _). eauto. }
  unfold find_nearest_cop. rewrite (bind_ok _ _ s (cops s) s) by done.
  destruct (cops s) as [|x cs]; [by eexists|].
  erewrite bind_ok by done. by eexists.
Qed.

Lemma try_cop_fail s t c acc id loc :
  t ∉ dom (vertices (graph s)) →
  try_cop t c acc (id, loc) s =
    (Raise (ValueError "Both start and end vertices must exist in the graph"), s).
Proof.
  intros Ht. unfold try_cop, bind, zoom.
  rewrite dijkstra_fail by by right. by rewrite set_graph_id.
Qed.

Lemma path_cost_nonneg vs c p k :
  nonneg_costs vs c → path_cost vs c p = Some k → 0 ≤ k.
Proof.
  intros Hnn. revert k. induction p as [|x p IH]; intros k Hk; [simpl in Hk; by simplify_eq|].
  destruct p as [|y q]; [simpl in Hk; by simplify_eq|].
  rewrite path_cost_cons2 in Hk. unfold adj in Hk.
  destruct (path_cost vs c (y :: q)) as [total|];
    destruct (vs !! x) as [vu|] eqn:Hx; simpl in Hk; try done;
    destruct (dict_get (edges vu) y) as [e|] eqn:He; simpl in Hk; try done.
  injection Hk as <-. specialize (IH _ eq_refl).
  pose proof (Hnn _ _ _ _ Hx (dict_get_elem _ _ _ He)). lia.
Qed.

(** X13. [add_cop] on a location that is not in the graph raises
    [ValueError] and assigns nothing. *)
Theorem add_cop_unknown_vertex cop_id vertex_id s :
  vertex_id ∉ dom (vertices (graph s)) →
  add_cop cop_id vertex_id s = (Raise (ValueError "Invalid vertex ID"), s).
Proof. apply add_cop_fail. Qed.

Lemma add_cop_unknown_vertex_witness :
  add_cop "R9" 42 star_dispatch = (Raise (ValueError "Invalid vertex ID"), star_dispatch).
Proof. apply add_cop_unknown_vertex. apply not_in_dom_check. vm_compute. reflexivity. Defined.

(** X14. [add_cop] on an existing location leaves the graph alone and
    makes the resource's location the given one, all other resources
    staying where they were; a resource that was already assigned keeps its
    place in the iteration order, a new one goes last. *)
Theorem add_cop_lookup cop_id vertex_id s :
  vertex_id ∈ dom (vertices (graph s)) →
  graph (exec (add_cop cop_id vertex_id) s) = graph s ∧
  (∀ id, dict_get (cops (exec (add_cop cop_id vertex_id) s)) id =
           if decide (cop_id = id) then Some vertex_id else dict_get (cops s) id) ∧
  (is_Some (dict_get (cops s) cop_id) →
     (cops (exec (add_cop cop_id vertex_id) s)).*1 = (cops s).*1) ∧
  (dict_get (cops s) cop_id = None →
     cops (exec (add_cop cop_id vertex_id) s) = (cops s ++ [(cop_id, vertex_id)])%list).
Proof.
  intros Hv. unfold exec. rewrite add_cop_ok by done. simpl. split_and!.
  - done.
  - intros id. apply dict_get_set.
  - apply dict_set_old_keys.
  - apply dict_set_new.
Qed.

Lemma add_cop_lookup_witness :
  graph (exec (add_cop "R2" 3) star_dispatch) = graph star_dispatch ∧
  (∀ id, dict_get (cops (exec (add_cop "R2" 3) star_dispatch)) id =
           if decide ("R2" = id) then Some 3 else dict_get (cops star_dispatch) id) ∧
  (is_Some (dict_get (cops star_dispatch) "R2") →
     (cops (exec (add_cop "R2" 3) star_dispatch)).*1 = (cops star_dispatch).*1) ∧
  (dict_get (cops star_dispatch) "R2" = None →
     cops (exec (add_cop "R2" 3) star_dispatch) = (cops star_dispatch ++ [("R2", 3)])%list).
Proof. apply add_cop_lookup. apply in_dom_check. vm_compute. reflexivity. Defined.

(** X15. [remove_cop] never raises and never touches the graph; afterwards
    the resource is not assigned and every other resource is where it was;
    removing a resource that is not assigned changes nothing. *)
Theorem remove_cop_lookup cop_id s :
  NoDup (cops s).*1 →
  (remove_cop cop_id s).1 = Ok tt ∧
  graph (exec (remove_cop cop_id) s) = graph s ∧
  (∀ id, dict_get (cops (exec (remove_cop cop_id) s)) id =
           if decide (cop_id = id) then None else dict_get (cops s) id) ∧
  (dict_get (cops s) cop_id = None → exec (remove_cop cop_id) s = s).
Proof.
  intros Hnd. unfold exec. rewrite remove_cop_run. simpl.
  destruct (dict_mem (cops s) cop_id) eqn:Hm; simpl; split_and!; try done.
  - intros id. by apply dict_get_del.
  - intros Hn. unfold dict_mem in Hm. apply bool_decide_eq_true in Hm.
    rewrite Hn in Hm. by destruct Hm.
  - intros id. apply dict_mem_false in Hm. case_decide; [by subst|done].
Qed.

Lemma remove_cop_lookup_witness :
  (remove_cop "R2" star_dispatch).1 = Ok tt ∧
  graph (exec (remove_cop "R2") star_dispatch) = graph star_dispatch ∧
  (∀ id, dict_get (cops (exec (remove_cop "R2") star_dispatch)) id =
           if decide ("R2" = id) then None else dict_get (cops star_dispatch) id) ∧
  (dict_get (cops star_dispatch) "R2" = None →
     exec (remove_cop "R2") star_dispatch = star_dispatch).
Proof. apply remove_cop_lookup. vm_compute. repeat constructor; set_solver. Defined.

(** X16. Assigning a resource that was not assigned and removing it again
    restores the dispatch system exactly, iteration order included. *)
Theorem add_then_remove_cop cop_id vertex_id s :
  vertex_id ∈ dom (vertices (graph s)) → dict_get (cops s) cop_id = None →
  exec (remove_cop cop_id) (exec (add_cop cop_id vertex_id) s) = s.
Proof.
  intros Hv Hn. unfold exec. rewrite add_cop_ok by done. simpl.
  rewrite remove_cop_run. simpl. unfold dict_mem.
  rewrite bool_decide_true; last first.
  { rewrite dict_get_set. rewrite decide_True by done. eauto. }
  rewrite dict_del_set_new by done. by destruct s.
Qed.

Lemma add_then_remove_cop_witness :
  exec (remove_cop "R7") (exec (add_cop "R7" 0) star_dispatch) = star_dispatch.
Proof.
  apply add_then_remove_cop; [|vm_compute; reflexivity].
  apply in_dom_check. vm_compute. reflexivity.
Defined.

(** X17. Whatever calls of [add_cop], [remove_cop], [add_vertex] and
    [add_edge] led to it, the dispatch system holds a well-formed graph, one
    entry per resource, and every resource at a vertex of the graph. *)
Theorem dispatched_invariants s : dispatched s → dispatch_ok s.
Proof. apply dispatched_dispatch_ok. Qed.

Lemma dispatched_invariants_witness :
  dispatch_ok (exec (remove_cop "R1")
    (exec (add_cop "R2" 0) (exec (add_cop "R1" 0)
      (exec (zoom graph set_graph (add_vertex 0 0 0)) (mkDispatch Graph_init []))))).
Proof. apply dispatched_invariants. repeat constructor. Defined.

(** X18. With at least one resource assigned, [find_nearest_cop] for a
    location that is not in the graph raises the [ValueError] of [dijkstra]
    and changes nothing. *)
Theorem find_nearest_cop_unknown_target s t c :
  cops s ≠ [] → t ∉ dom (vertices (graph s)) →
  find_nearest_cop t c s =
    (Raise (ValueError "Both start and end vertices must exist in the graph"), s).
Proof.
  intros Hne Ht. unfold find_nearest_cop. rewrite (bind_ok _ _ s (cops s) s) by done.
  destruct (cops s) as [|[id loc] cs]; [done|].
  unfold bind. cbn [for_eachM]. unfold bind. by rewrite try_cop_fail.
Qed.

Lemma find_nearest_cop_unknown_target_witness :
  find_nearest_cop 42 "normal" star_dispatch =
    (Raise (ValueError "Both start and end vertices must exist in the graph"),
     star_dispatch).
Proof.
  apply find_nearest_cop_unknown_target; [discriminate|].
  apply not_in_dom_check. vm_compute. reflexivity.
Defined.

(** X19. No sequence of calls brings the dispatch system into a state in
    which [find_nearest_cop] for an existing location raises: it returns,
    and leaves the system as it was. *)
Theorem find_nearest_cop_never_raises s t c :
  dispatched s → t ∈ dom (vertices (graph s)) →
  ∃ r, find_nearest_cop t c s = (Ok r, s).
Proof. intros Hs Ht. apply find_nearest_cop_runs; [by apply dispatched_dispatch_ok|done]. Qed.

Lemma find_nearest_cop_never_raises_witness :
  ∃ r, find_nearest_cop 0 "light"
         (exec (add_cop "R1" 0)
            (exec (zoom graph set_graph (add_vertex 0 0 0)) (mkDispatch Graph_init [])))
       = (Ok r, exec (add_cop "R1" 0)
            (exec (zoom graph set_graph (add_vertex 0 0 0)) (mkDispatch Graph_init []))).
Proof.
  apply find_nearest_cop_never_raises; [repeat constructor|].
  apply in_dom_check. vm_compute. reflexivity.
Defined.

(** X20. With non-negative costs, when some resource stands at the target
    itself, [find_nearest_cop] returns a resource with cost 0. *)
Theorem find_nearest_cop_on_the_spot s t c id :
  dispatch_ok s → nonneg_costs (vertices (graph s)) c → (id, t) ∈ cops s →
  ∃ r p, find_nearest_cop t c s = (Ok (Some r, Some (Fin 0), Some p), s).
Proof.
  intros (Hwf & _ & Hloc) Hnn Hin. pose proof (Hloc _ _ Hin) as Ht.
  destruct (nearest_fold s t c (cops s)) with (acc := (@None string, Inf, @None (list Z)))
    as (r & m & p & Hrun & _ & Hmin & Hwho).
  { intros i loc Hi.
    destruct (dijkstra_result (graph s) loc t c Hwf (Hloc _ _ Hi) Ht)
      as (? & l & d & Hr & _). eauto. }
  pose proof (Hmin id t (Fin 0) [t] Hin (dijkstra_self _ _ _ Ht)) as Hle.
  destruct Hwho as [[= -> -> ->]|(pre & i & loc & post & path & Hsplit & -> & -> & Hd & _)];
    [done|].
  destruct m as [z|]; [|done]. simpl in Hle.
  assert (loc ∈ dom (vertices (graph s))) as Hl.
  { apply (Hloc i). rewrite Hsplit. apply elem_of_app. right. left. }
  destruct (dijkstra_path_cost _ _ _ _ _ _ Hwf Hl Ht Hd) as (_ & _ & Hc).
  pose proof (path_cost_nonneg _ _ _ _ Hnn Hc).
  assert (z = 0) as -> by lia.
  unfold find_nearest_cop. rewrite (bind_ok _ _ s (cops s) s) by done.
  destruct (cops s) as [|x cs]; [by apply elem_of_nil in Hin|].
  erewrite bind_ok by done. by eexists _, _.
Qed.

Lemma find_nearest_cop_on_the_spot_witness :
  ∃ r p, find_nearest_cop 2 "normal" star_dispatch
           = (Ok (Some r, Some (Fin 0), Some p), star_dispatch).
Proof.
  apply (find_nearest_cop_on_the_spot star_dispatch 2 "normal" "R2").
  - apply dispatch_check_sound. vm_compute. reflexivity.
  - apply nonneg_check_sound. vm_compute. reflexivity.
  - set_solver.
Defined.

(** * Conditions and distances *)

Lemma for_each_ext {A B} (f f' : A → B → result A) l :
  (∀ a b, f a b = f' a b) → ∀ a, for_each f a l = for_each f' a l.
Proof.
  intros Hf. induction l as [|b l IH]; intros a; simpl; [done|].
  rewrite Hf. destruct (f' a b); simpl; auto.
Qed.

Lemma relax_fallback c d u st item :
  c ≠ "light" → c ≠ "normal" → c ≠ "rush_hour" →
  relax c d u st item = relax "normal" d u st item.
Proof.
  intros H1 H2 H3. unfold relax. destruct item as [n e].
  by rewrite (get_weight_fallback e c).
Qed.

Lemma dijkstra_while_fallback c e g :
  c ≠ "light" → c ≠ "normal" → c ≠ "rush_hour" →
  ∀ fuel st, dijkstra_while fuel e c st g = dijkstra_while fuel e "normal" st g.
Proof.
  intros H1 H2 H3. induction fuel as [|fuel IH]; intros st; simpl; [done|].
  destruct (heappop (pq st)) as [[[d u] q']|]; [|done].
  case_decide; [done|]. unfold bind, visit_vertex.
  case_decide; [apply IH|]. unfold bind, gets, liftR.
  destruct (subscript (vertices g !! u)) as [vu| |]; [|done..].
  rewrite (for_each_ext _ (relax "normal" d u)) by (intros; by apply relax_fallback).
  destruct (for_each _ _ _); [apply IH|done..].
Qed.

Lemma dijkstra_fallback a b c g :
  c ≠ "light" → c ≠ "normal" → c ≠ "rush_hour" →
  dijkstra a b c g = dijkstra a b "normal" g.
Proof.
  intros H1 H2 H3. unfold dijkstra, bind, gets.
  destruct (_ || _); [done|]. by rewrite dijkstra_while_fallback.
Qed.

Lemma try_cop_fallback t c acc item s :
  c ≠ "light" → c ≠ "normal" → c ≠ "rush_hour" →
  try_cop t c acc item s = try_cop t "normal" acc item s.
Proof.
  intros H1 H2 H3. unfold try_cop. destruct item as [id loc].
  unfold bind, zoom. by rewrite dijkstra_fallback.
Qed.

(** X21. A traffic condition other than the three recognised ones is
    treated as normal traffic throughout: [dijkstra] and [find_nearest_cop]
    answer exactly as they do for ["normal"]. *)
Theorem unknown_condition_is_normal c :
  c ≠ "light" → c ≠ "normal" → c ≠ "rush_hour" →
  (∀ a b g, dijkstra a b c g = dijkstra a b "normal" g) ∧
  (∀ t s, find_nearest_cop t c s = find_nearest_cop t "normal" s).
Proof.
  intros H1 H2 H3. split.
  - intros a b g. by apply dijkstra_fallback.
  - intros t s. unfold find_nearest_cop, bind, gets.
    destruct (cops s) as [|x cs]; [done|].
    assert (∀ l acc s0, for_eachM (try_cop t c) acc l s0
                        = for_eachM (try_cop t "normal") acc l s0) as ->; [|done].
    induction l as [|item l IH]; intros acc s0; [done|].
    cbn [for_eachM]. unfold bind. rewrite try_cop_fallback by done.
    destruct (try_cop t "normal" acc item s0) as [[acc'| |] s1]; [apply IH|done..].
Qed.

Lemma unknown_condition_is_normal_witness :
  (∀ a b g, dijkstra a b "fog" g = dijkstra a b "normal" g) ∧
  (∀ t s, find_nearest_cop t "fog" s = find_nearest_cop t "normal" s).
Proof. apply unknown_condition_is_normal; discriminate. Defined.

Lemma walk_trans vs c a b d k1 k2 :
  walk vs c a b k1 → walk vs c b d k2 → walk vs c a d (k1 + k2).
Proof.
  intros H1 H2. induction H2 as [|u vu n e k Hw IH Hu He].
  - by rewrite Z.add_0_r.
  - rewrite Z.add_assoc. by eapply walk_step.
Qed.

(** X22. For integer (exact) costs that are non-negative, the returned
    costs obey the triangle inequality: going from [a] to [d] costs no more
    than going from [a] to [b] and from [b] to [d].  (With [float] costs the
    sums are bracketed differently and may round apart.) *)
Theorem dijkstra_triangle g a b d c z1 z2 p1 p2 :
  wf_graph g → nonneg_costs (vertices g) c →
  a ∈ dom (vertices g) → b ∈ dom (vertices g) → d ∈ dom (vertices g) →
  dijkstra a b c g = (Ok (Fin z1, p1), g) →
  dijkstra b d c g = (Ok (Fin z2, p2), g) →
  ∃ z p, dijkstra a d c g = (Ok (Fin z, p), g) ∧ z ≤ z1 + z2.
Proof.
  intros Hwf Hnn Ha Hb Hd H1 H2.
  destruct (dijkstra_path_cost _ _ _ _ _ _ Hwf Ha Hb H1) as (Hh1 & Hl1 & Hc1).
  destruct (dijkstra_path_cost _ _ _ _ _ _ Hwf Hb Hd H2) as (Hh2 & Hl2 & Hc2).
  pose proof (walk_trans _ _ _ _ _ _ _
                (path_walk _ _ _ _ _ _ Hh1 Hl1 Hc1) (path_walk _ _ _ _ _ _ Hh2 Hl2 Hc2)) as Hw.
  destruct (dijkstra_below_walk g a d c _ Hwf Hnn Ha Hd Hw) as (dd & p & Hr & Hle).
  destruct dd as [z|]; [|done]. eauto.
Qed.

Lemma dijkstra_triangle_witness :
  ∃ z p, dijkstra 29 26 "normal" create_map = (Ok (Fin z, p), create_map) ∧ z ≤ 23 + 26.
Proof.
  apply (dijkstra_triangle create_map 29 16 26 "normal" 23 26 [29; 17; 16] [16; 27; 26]).
  - apply wf_check_sound. vm_compute. reflexivity.
  - apply nonneg_check_sound. vm_compute. reflexivity.
  - apply in_dom_check. vm_compute. reflexivity.
  - apply in_dom_check. vm_compute. reflexivity.
  - apply in_dom_check. vm_compute. reflexivity.
  - vm_compute. reflexivity.
  - vm_compute. reflexivity.
Defined.
